(** * The event core of [vs/base/common/event.ts]

    A shallow embedding of [LeakageMonitor], [EventProfiling], [Emitter],
    [PauseableEmitter], [DebounceEmitter] and [AsyncEmitter], together with
    the properties of their dispatch protocol.

    Conventions of the embedding.
    - One emitter lives in a small world that also holds what the emitter
      reaches but does not own: the module-level
      [_globalLeakWarningThreshold], the clock and timer behind
      [setTimeout], the microtask queue, the heap of [SafeDisposable]
      subscriptions, and one log that records every listener invocation,
      every [onUnexpectedError], every [console.warn] of the leak monitor
      and every [console.info] of the profiler.
    - A listener callback is a script: the calls it makes back into the
      emitter, in order.  Callbacks may fire, subscribe, release, dispose,
      pause, resume and throw, so dispatch is re-entrant exactly as in the
      source.  Loops that the source does not bound ([while] over a queue
      that listeners may refill) take fuel.
    - JavaScript numbers that are only counted are [nat]; thresholds and the
      warning countdown, which is multiplied by [0.5], are exact rationals.
    - The hooks of [EmitterOptions] are owner code; the embedding records
      that a hook was called and treats its body as returning normally
      without calling back into the emitter.
    - Time is a clock that is advanced explicitly; a timeout runs at its
      due time, when the clock is advanced to that time or beyond it. *)

From Stdlib Require Import QArith Lqa.
From stdpp Require Import gmap strings list.

Set Warnings "-register-all".
Local Open Scope Z_scope.

(** ** Small JavaScript helpers *)

(** [!s] on a [string | undefined]: both [undefined] and [''] are falsy. *)
Definition falsy (s : option string) : bool :=
  match s with
  | None => true
  | Some str => if decide (str = "") then true else false
  end.

(** [a < b] on numbers. *)
Definition Qlt_bool (a b : Q) : bool := negb (Qle_bool b a).

Definition Qnat (n : nat) : Q := inject_Z (Z.of_nat n).

(** [setTimeout(callback, delay)] belongs to the runtime, not to the
    repository.  What is kept of it: the callback runs once, when its delay
    has passed, and a delay that is not between 1 and [2^31 - 1]
    milliseconds is taken as 1 millisecond (Node.js timers), so that a
    timeout is never due at the moment at which it is set. *)
Definition TIMEOUT_MAX : Z := 2147483647.

Definition setTimeout_after (delay : Z) : Z :=
  if (1 <=? delay) && (delay <=? TIMEOUT_MAX) then delay else 1.

(** ** LeakageMonitor *)

(** A JavaScript [Map<string, number>]: iteration follows insertion order
    and [set] on a present key keeps its position. *)
Fixpoint Map_get (k : string) (m : list (string * Z)) : option Z :=
  match m with
  | [] => None
  | (k', v) :: m' => if decide (k' = k) then Some v else Map_get k m'
  end.

Fixpoint Map_set (k : string) (v : Z) (m : list (string * Z)) : list (string * Z) :=
  match m with
  | [] => [(k, v)]
  | (k', v') :: m' =>
      if decide (k' = k) then (k, v) :: m' else (k', v') :: Map_set k v m'
  end.

(** [this._stacks.get(key) || 0]: a missing key and a zero count both read 0. *)
Definition tally (k : string) (m : list (string * Z)) : Z :=
  default 0 (Map_get k m).

(** The monitor; its [name], a random label for the console, is left out. *)
Record LeakageMonitor := {
  customThreshold : option Q;
  _stacks : option (list (string * Z));
  _warnCountdown : Q
}.

Definition new_LeakageMonitor (customThreshold : option Q) : LeakageMonitor :=
  {| customThreshold := customThreshold; _stacks := None; _warnCountdown := 0%Q |}.

(** The loop of [check] that finds the most frequent capture site. *)
Fixpoint topOf (m : list (string * Z)) (topStack : option string) (topCount : Z)
  : option string * Z :=
  match m with
  | [] => (topStack, topCount)
  | (stack, count) :: m' =>
      if falsy topStack || (topCount <? count)
      then topOf m' (Some stack) count
      else topOf m' topStack topCount
  end.

(** One [console.warn] pair of the monitor. *)
Record warning := {
  warn_listenerCount : nat;
  warn_topCount : Z;
  warn_topStack : option string
}.

(** [LeakageMonitor.check(stack, listenerCount)], with the global threshold
    read at the time of the call.  The result is the monitor afterwards, the
    warning printed (if any) and the key of the returned remove-closure
    ([None] for [undefined]). *)
Definition LeakageMonitor_check (global : Q) (stack : string) (listenerCount : nat)
    (m : LeakageMonitor) : LeakageMonitor * option warning * option string :=
  let threshold := default global (customThreshold m) in
  if Qle_bool threshold 0 || Qlt_bool (Qnat listenerCount) threshold
  then (m, None, None)
  else
    let stacks := default [] (_stacks m) in
    let count := tally stack stacks in
    let stacks := Map_set stack (count + 1) stacks in
    let countdown := (_warnCountdown m - 1)%Q in
    if Qle_bool countdown 0
    then
      let '(topStack, topCount) := topOf stacks None 0 in
      ({| customThreshold := customThreshold m;
          _stacks := Some stacks;
          _warnCountdown := (threshold * (1 # 2))%Q |},
       Some {| warn_listenerCount := listenerCount;
               warn_topCount := topCount;
               warn_topStack := topStack |},
       Some stack)
    else
      ({| customThreshold := customThreshold m;
          _stacks := Some stacks;
          _warnCountdown := countdown |},
       None,
       Some stack).

(** The closure returned by [check]: decrement the tally of its site. *)
Definition LeakageMonitor_remove (stack : string) (m : LeakageMonitor) : LeakageMonitor :=
  let stacks := default [] (_stacks m) in
  {| customThreshold := customThreshold m;
     _stacks := Some (Map_set stack (tally stack stacks - 1) stacks);
     _warnCountdown := _warnCountdown m |}.

(** [LeakageMonitor.dispose]: clear the tally map when it exists. *)
Definition LeakageMonitor_dispose (m : LeakageMonitor) : LeakageMonitor :=
  {| customThreshold := customThreshold m;
     _stacks := match _stacks m with Some _ => Some [] | None => None end;
     _warnCountdown := _warnCountdown m |}.

(** ** EventProfiling

    [StopWatch] (vs/base/common/stopwatch) reads real time and is not among
    the sources; the embedding keeps whether the stopwatch is running and
    what [console.info] can report without a clock. *)
Record EventProfiling := {
  _stopWatch : bool;
  _listenerCount : nat;
  _invocationCount : nat
}.

Definition new_EventProfiling : EventProfiling :=
  {| _stopWatch := false; _listenerCount := 0; _invocationCount := 0 |}.

Definition EventProfiling_start (listenerCount : nat) (p : EventProfiling) : EventProfiling :=
  {| _stopWatch := true; _listenerCount := listenerCount;
     _invocationCount := _invocationCount p |}.

(** ** Emitter and its subclasses *)

Inductive hook := OnFirstListenerAdd | OnFirstListenerDidAdd | OnListenerDidAdd | OnLastListenerRemove.

(** [EmitterOptions]; an absent options object is the record with every
    field absent. *)
Record EmitterOptions := {
  onFirstListenerAdd : bool;
  onFirstListenerDidAdd : bool;
  onListenerDidAdd : bool;
  onLastListenerRemove : bool;
  leakWarningThreshold : option Q;
  _profName : option string
}.

Definition no_options : EmitterOptions :=
  {| onFirstListenerAdd := false; onFirstListenerDidAdd := false;
     onListenerDidAdd := false; onLastListenerRemove := false;
     leakWarningThreshold := None; _profName := None |}.

(** The class whose [fire] a virtual call reaches. *)
Inductive emitterClass := EmitterClass | PauseableEmitterClass | DebounceEmitterClass.

Section Emitter.
Context {T : Type}.

(** What a callback (or the owner of the emitter) does, one call at a time. *)
Inductive action : Type :=
| AThrow (e : string)                               (* throw new Error(e) *)
| AFire (event : T)                                 (* emitter.fire(event) *)
| ASubscribe (site : string) (callback : T -> list action)
                                                    (* emitter.event(callback), called from [site] *)
| ARelease (id : nat)                               (* dispose the handle of the id-th subscription *)
| ADispose                                          (* emitter.dispose() *)
| APause                                            (* emitter.pause() *)
| AResume                                           (* emitter.resume() *)
| ASetGlobalLeakWarningThreshold (n : Q).           (* setGlobalLeakWarningThreshold(n) *)

(** [Listener]: objects are compared by reference, so each carries the
    number of the subscription that created it. *)
Record Listener := {
  lid : nat;
  callback : T -> list action;
  stack : option string
}.

Inductive logEntry : Type :=
| Invoked (id : nat) (event : T)      (* listener.invoke(event) entered *)
| Reported (e : string)               (* onUnexpectedError(e) *)
| Warned (w : warning)                (* console.warn of the leak monitor *)
| Profiled (listenerCount invocationCount : nat)   (* console.info of the profiler *)
| Hooked (h : hook).                  (* an option hook was called *)

(** The fields fixed by the constructors. *)
Record config := {
  class : emitterClass;
  _options : EmitterOptions;
  _mergeFn : option (list T -> T);
  _delay : Z
}.

Record state := {
  cfg : config;
  (* module level and runtime *)
  _globalLeakWarningThreshold : Q;
  clock : Z;
  microtasks : list (list Listener);
  subscriptions : gmap nat (option string);   (* SafeDisposable cells still set; the value is the remove-closure key *)
  nextId : nat;
  log : list logEntry;
  (* Emitter *)
  _leakageMon : option LeakageMonitor;
  _perfMon : option EventProfiling;
  _disposed : bool;
  _deliveryQueue : option (list (Listener * T));
  _listeners : option (list Listener);
  (* PauseableEmitter *)
  _isPaused : nat;
  _eventQueue : list T;
  (* DebounceEmitter: the due time of the pending timeout *)
  _handle : option Z
}.

Definition set_global (n : Q) (s : state) : state :=
  {| cfg := cfg s; _globalLeakWarningThreshold := n; clock := clock s;
     microtasks := microtasks s; subscriptions := subscriptions s; nextId := nextId s;
     log := log s; _leakageMon := _leakageMon s; _perfMon := _perfMon s;
     _disposed := _disposed s; _deliveryQueue := _deliveryQueue s;
     _listeners := _listeners s; _isPaused := _isPaused s;
     _eventQueue := _eventQueue s; _handle := _handle s |}.

Definition set_clock (t : Z) (s : state) : state :=
  {| cfg := cfg s; _globalLeakWarningThreshold := _globalLeakWarningThreshold s; clock := t;
     microtasks := microtasks s; subscriptions := subscriptions s; nextId := nextId s;
     log := log s; _leakageMon := _leakageMon s; _perfMon := _perfMon s;
     _disposed := _disposed s; _deliveryQueue := _deliveryQueue s;
     _listeners := _listeners s; _isPaused := _isPaused s;
     _eventQueue := _eventQueue s; _handle := _handle s |}.

Definition set_microtasks (m : list (list Listener)) (s : state) : state :=
  {| cfg := cfg s; _globalLeakWarningThreshold := _globalLeakWarningThreshold s; clock := clock s;
     microtasks := m; subscriptions := subscriptions s; nextId := nextId s;
     log := log s; _leakageMon := _leakageMon s; _perfMon := _perfMon s;
     _disposed := _disposed s; _deliveryQueue := _deliveryQueue s;
     _listeners := _listeners s; _isPaused := _isPaused s;
     _eventQueue := _eventQueue s; _handle := _handle s |}.

Definition set_subscriptions (m : gmap nat (option string)) (s : state) : state :=
  {| cfg := cfg s; _globalLeakWarningThreshold := _globalLeakWarningThreshold s; clock := clock s;
     microtasks := microtasks s; subscriptions := m; nextId := nextId s;
     log := log s; _leakageMon := _leakageMon s; _perfMon := _perfMon s;
     _disposed := _disposed s; _deliveryQueue := _deliveryQueue s;
     _listeners := _listeners s; _isPaused := _isPaused s;
     _eventQueue := _eventQueue s; _handle := _handle s |}.

Definition set_nextId (n : nat) (s : state) : state :=
  {| cfg := cfg s; _globalLeakWarningThreshold := _globalLeakWarningThreshold s; clock := clock s;
     microtasks := microtasks s; subscriptions := subscriptions s; nextId := n;
     log := log s; _leakageMon := _leakageMon s; _perfMon := _perfMon s;
     _disposed := _disposed s; _deliveryQueue := _deliveryQueue s;
     _listeners := _listeners s; _isPaused := _isPaused s;
     _eventQueue := _eventQueue s; _handle := _handle s |}.

Definition set_log (l : list logEntry) (s : state) : state :=
  {| cfg := cfg s; _globalLeakWarningThreshold := _globalLeakWarningThreshold s; clock := clock s;
     microtasks := microtasks s; subscriptions := subscriptions s; nextId := nextId s;
     log := l; _leakageMon := _leakageMon s; _perfMon := _perfMon s;
     _disposed := _disposed s; _deliveryQueue := _deliveryQueue s;
     _listeners := _listeners s; _isPaused := _isPaused s;
     _eventQueue := _eventQueue s; _handle := _handle s |}.

Definition set_leakageMon (m : option LeakageMonitor) (s : state) : state :=
  {| cfg := cfg s; _globalLeakWarningThreshold := _globalLeakWarningThreshold s; clock := clock s;
     microtasks := microtasks s; subscriptions := subscriptions s; nextId := nextId s;
     log := log s; _leakageMon := m; _perfMon := _perfMon s;
     _disposed := _disposed s; _deliveryQueue := _deliveryQueue s;
     _listeners := _listeners s; _isPaused := _isPaused s;
     _eventQueue := _eventQueue s; _handle := _handle s |}.

Definition set_perfMon (p : option EventProfiling) (s : state) : state :=
  {| cfg := cfg s; _globalLeakWarningThreshold := _globalLeakWarningThreshold s; clock := clock s;
     microtasks := microtasks s; subscriptions := subscriptions s; nextId := nextId s;
     log := log s; _leakageMon := _leakageMon s; _perfMon := p;
     _disposed := _disposed s; _deliveryQueue := _deliveryQueue s;
     _listeners := _listeners s; _isPaused := _isPaused s;
     _eventQueue := _eventQueue s; _handle := _handle s |}.

Definition set_disposed (b : bool) (s : state) : state :=
  {| cfg := cfg s; _globalLeakWarningThreshold := _globalLeakWarningThreshold s; clock := clock s;
     microtasks := microtasks s; subscriptions := subscriptions s; nextId := nextId s;
     log := log s; _leakageMon := _leakageMon s; _perfMon := _perfMon s;
     _disposed := b; _deliveryQueue := _deliveryQueue s;
     _listeners := _listeners s; _isPaused := _isPaused s;
     _eventQueue := _eventQueue s; _handle := _handle s |}.

Definition set_deliveryQueue (q : option (list (Listener * T))) (s : state) : state :=
  {| cfg := cfg s; _globalLeakWarningThreshold := _globalLeakWarningThreshold s; clock := clock s;
     microtasks := microtasks s; subscriptions := subscriptions s; nextId := nextId s;
     log := log s; _leakageMon := _leakageMon s; _perfMon := _perfMon s;
     _disposed := _disposed s; _deliveryQueue := q;
     _listeners := _listeners s; _isPaused := _isPaused s;
     _eventQueue := _eventQueue s; _handle := _handle s |}.

Definition set_listeners (l : option (list Listener)) (s : state) : state :=
  {| cfg := cfg s; _globalLeakWarningThreshold := _globalLeakWarningThreshold s; clock := clock s;
     microtasks := microtasks s; subscriptions := subscriptions s; nextId := nextId s;
     log := log s; _leakageMon := _leakageMon s; _perfMon := _perfMon s;
     _disposed := _disposed s; _deliveryQueue := _deliveryQueue s;
     _listeners := l; _isPaused := _isPaused s;
     _eventQueue := _eventQueue s; _handle := _handle s |}.

Definition set_isPaused (n : nat) (s : state) : state :=
  {| cfg := cfg s; _globalLeakWarningThreshold := _globalLeakWarningThreshold s; clock := clock s;
     microtasks := microtasks s; subscriptions := subscriptions s; nextId := nextId s;
     log := log s; _leakageMon := _leakageMon s; _perfMon := _perfMon s;
     _disposed := _disposed s; _deliveryQueue := _deliveryQueue s;
     _listeners := _listeners s; _isPaused := n;
     _eventQueue := _eventQueue s; _handle := _handle s |}.

Definition set_eventQueue (q : list T) (s : state) : state :=
  {| cfg := cfg s; _globalLeakWarningThreshold := _globalLeakWarningThreshold s; clock := clock s;
     microtasks := microtasks s; subscriptions := subscriptions s; nextId := nextId s;
     log := log s; _leakageMon := _leakageMon s; _perfMon := _perfMon s;
     _disposed := _disposed s; _deliveryQueue := _deliveryQueue s;
     _listeners := _listeners s; _isPaused := _isPaused s;
     _eventQueue := q; _handle := _handle s |}.

Definition set_handle (h : option Z) (s : state) : state :=
  {| cfg := cfg s; _globalLeakWarningThreshold := _globalLeakWarningThreshold s; clock := clock s;
     microtasks := microtasks s; subscriptions := subscriptions s; nextId := nextId s;
     log := log s; _leakageMon := _leakageMon s; _perfMon := _perfMon s;
     _disposed := _disposed s; _deliveryQueue := _deliveryQueue s;
     _listeners := _listeners s; _isPaused := _isPaused s;
     _eventQueue := _eventQueue s; _handle := h |}.

Definition emit (e : logEntry) (s : state) : state := set_log (log s ++ [e]) s.

(** How a call ends: it returns, it throws, or the fuel of the embedding
    ran out before it did either. *)
Inductive result : Type :=
| Returned (s : state)
| Thrown (e : string) (s : state)
| OutOfFuel (s : state).

Definition bind (r : result) (k : state -> result) : result :=
  match r with
  | Returned s => k s
  | Thrown e s => Thrown e s
  | OutOfFuel s => OutOfFuel s
  end.

Definition final (r : result) : state :=
  match r with Returned s | Thrown _ s | OutOfFuel s => s end.

(** *** Constructors *)

(** [new Emitter(options)], in a world whose global threshold is [global]. *)
Definition construct (c : emitterClass) (global : Q) (now : Z) (options : EmitterOptions)
    (merge : option (list T -> T)) (delay : Z) : state :=
  {| cfg := {| class := c; _options := options; _mergeFn := merge; _delay := delay |};
     _globalLeakWarningThreshold := global;
     clock := now;
     microtasks := [];
     subscriptions := ∅;
     nextId := 0;
     log := [];
     _leakageMon :=
       if Qlt_bool 0 global
       then Some (new_LeakageMonitor (leakWarningThreshold options))
       else None;
     _perfMon := if falsy (_profName options) then None else Some new_EventProfiling;
     _disposed := false;
     _deliveryQueue := None;
     _listeners := None;
     _isPaused := 0;
     _eventQueue := [];
     _handle := None |}.

Definition new_Emitter (global : Q) (options : EmitterOptions) : state :=
  construct EmitterClass global 0 options None 0.

Definition new_PauseableEmitter (global : Q) (options : EmitterOptions)
    (merge : option (list T -> T)) : state :=
  construct PauseableEmitterClass global 0 options merge 0.

(** [delay] defaults to 100 when the option is absent. *)
Definition new_DebounceEmitter (global : Q) (now : Z) (options : EmitterOptions)
    (merge : list T -> T) (delay : option Z) : state :=
  construct DebounceEmitterClass global now options (Some merge) (default 100 delay).

(** *** Subscribing: the function behind [get event()] *)

(** Modelled from the spec: [LinkedList] (vs/base/common/linkedList) is not
    among the sources; the spec describes it as the FIFO list container
    used for the listener set and the queues.  It is a list here: [push]
    appends at the end, [shift] takes the head, iteration and [Array.from]
    read front to back, [clear] empties, and the closure returned by
    [push] unlinks the node it created.  A field that holds [undefined]
    until the list is created is an [option]. *)
Definition LinkedList_size (l : option (list Listener)) : nat :=
  match l with Some ls => length ls | None => 0 end.

Definition LinkedList_isEmpty (l : option (list Listener)) : bool :=
  match l with Some (_ :: _) => false | _ => true end.

Definition call_hook (enabled : bool) (h : hook) (s : state) : state :=
  if enabled then emit (Hooked h) s else s.

(** [emitter.event(callback)] called from capture site [site].  The handle
    it returns is the number [nextId s] of the new subscription; the
    optional [disposables] store of the caller, into which the source also
    puts the handle, is the caller's and is left out. *)
Definition subscribe (site : string) (cb : T -> list action) (s : state) : state :=
  let s := match _listeners s with
           | None => set_listeners (Some []) s
           | Some _ => s
           end in
  let firstListener := LinkedList_isEmpty (_listeners s) in
  let s := call_hook (firstListener && onFirstListenerAdd (_options (cfg s)))
                     OnFirstListenerAdd s in
  (* check and record this emitter for potential leakage *)
  let '(s, removeMonitor, stack) :=
    match _leakageMon s with
    | Some m =>
        let '(m', w, rm) :=
          LeakageMonitor_check (_globalLeakWarningThreshold s) site
                               (LinkedList_size (_listeners s) + 1) m in
        let s := set_leakageMon (Some m') s in
        let s := match w with Some w => emit (Warned w) s | None => s end in
        (s, rm, Some site)
    | None => (s, None, None)
    end in
  let id := nextId s in
  let listener := {| lid := id; callback := cb; stack := stack |} in
  let s := set_listeners (Some (default [] (_listeners s) ++ [listener])) s in
  let s := call_hook (firstListener && onFirstListenerDidAdd (_options (cfg s)))
                     OnFirstListenerDidAdd s in
  let s := call_hook (onListenerDidAdd (_options (cfg s))) OnListenerDidAdd s in
  set_nextId (S id) (set_subscriptions (<[id := removeMonitor]> (subscriptions s)) s).

(** Modelled from the spec: the closure returned by [LinkedList.push],
    called [removeListener] by its only caller; it unlinks the node that
    [push] created. *)
Definition removeListener (id : nat) (ls : list Listener) : list Listener :=
  filter (fun l => lid l ≠ id) ls.

(** Disposing the handle of subscription [id] ([SafeDisposable.dispose]
    around the closure given to [toDisposable]). *)
Definition release (id : nat) (s : state) : state :=
  match subscriptions s !! id with
  | None => s
  | Some removeMonitor =>
      let s := match removeMonitor with
               | Some key => set_leakageMon (LeakageMonitor_remove key <$> _leakageMon s) s
               | None => s
               end in
      let s :=
        if _disposed s then s
        else
          let s := set_listeners (removeListener id <$> _listeners s) s in
          call_hook (onLastListenerRemove (_options (cfg s))
                     && LinkedList_isEmpty (_listeners s))
                    OnLastListenerRemove s in
      set_subscriptions (delete id (subscriptions s)) s
  end.

(** *** Emitter.dispose *)

(** Modelled from the spec: [LinkedList.clear] on a field that may be
    [undefined] ([this._deliveryQueue?.clear()]). *)
Definition clear {A} (l : option (list A)) : option (list A) :=
  match l with Some _ => Some [] | None => None end.

Definition dispose (s : state) : state :=
  if _disposed s then s
  else
    let s := set_disposed true s in
    let s := match _listeners s with
             | Some ls => set_microtasks (microtasks s ++ [ls]) (set_listeners (Some []) s)
             | None => s
             end in
    let s := set_deliveryQueue (clear (_deliveryQueue s)) s in
    let s := call_hook (onLastListenerRemove (_options (cfg s))) OnLastListenerRemove s in
    set_leakageMon (LeakageMonitor_dispose <$> _leakageMon s) s.

(** The microtask queued by [dispose]: unset every subscription of the
    snapshot that is still set. *)
Definition unsetAll (ls : list Listener) (s : state) : state :=
  foldl (fun s l => set_subscriptions (delete (lid l) (subscriptions s)) s) s ls.

Definition runMicrotasks (s : state) : state :=
  foldl (fun s ls => unsetAll ls s) (set_microtasks [] s) (microtasks s).

(** *** Firing *)

(** The two unbounded loops of the source: the [while] of [Emitter.fire]
    over the delivery queue and the [while] of [PauseableEmitter.resume]
    over the event queue. *)
Inductive loop := Deliver | Flush.

(** Modelled from the spec: [onUnexpectedError] (vs/base/common/errors) is
    not among the sources; the spec describes it as the process-wide error
    sink, which receives the fault and never throws back into the caller. *)
Definition onUnexpectedError (e : string) (s : state) : state := emit (Reported e) s.

Definition perfMon_start (s : state) : state :=
  match _perfMon s with
  | Some p => set_perfMon
                (Some (EventProfiling_start (length (default [] (_deliveryQueue s))) p)) s
  | None => s
  end.

Definition perfMon_stop (s : state) : state :=
  match _perfMon s with
  | Some p =>
      if _stopWatch p
      then emit (Profiled (_listenerCount p) (_invocationCount p + 1))
             (set_perfMon (Some {| _stopWatch := false;
                                   _listenerCount := _listenerCount p;
                                   _invocationCount := _invocationCount p + 1 |}) s)
      else s
  | None => s
  end.

Section Calls.
(** [rec w] runs loop [w] to its end with the fuel that is left. *)
Variable rec : loop -> state -> result.

(** [Emitter.fire(event)] *)
Definition Emitter_fire (event : T) (s : state) : result :=
  match _listeners s with
  | Some ls =>
      let s := match _deliveryQueue s with
               | None => set_deliveryQueue (Some []) s
               | Some _ => s
               end in
      let s := set_deliveryQueue
                 (Some (default [] (_deliveryQueue s) ++ map (fun l => (l, event)) ls)) s in
      let s := perfMon_start s in
      bind (rec Deliver s) (fun s => Returned (perfMon_stop s))
  | None => Returned s
  end.

(** [PauseableEmitter.pause()] *)
Definition pause (s : state) : state := set_isPaused (S (_isPaused s)) s.

(** [PauseableEmitter.resume()] *)
Definition resume (s : state) : result :=
  match _isPaused s with
  | O => Returned s
  | S n =>
      let s := set_isPaused n s in
      match n with
      | O =>
          match _mergeFn (cfg s) with
          | Some merge =>
              let events := _eventQueue s in
              Emitter_fire (merge events) (set_eventQueue [] s)
          | None => rec Flush s
          end
      | S _ => Returned s
      end
  end.

(** [PauseableEmitter.fire(event)] *)
Definition PauseableEmitter_fire (event : T) (s : state) : result :=
  match _listeners s with
  | Some _ =>
      match _isPaused s with
      | O => Emitter_fire event s
      | S _ => Returned (set_eventQueue (_eventQueue s ++ [event]) s)
      end
  | None => Returned s
  end.

(** [DebounceEmitter.fire(event)]; [setTimeout] records when the timeout is due. *)
Definition DebounceEmitter_fire (event : T) (s : state) : result :=
  let s := match _handle s with
           | None => set_handle (Some (clock s + setTimeout_after (_delay (cfg s)))) (pause s)
           | Some _ => s
           end in
  PauseableEmitter_fire event s.

(** [emitter.fire(event)] through the class of the object. *)
Definition fire (event : T) (s : state) : result :=
  match class (cfg s) with
  | EmitterClass => Emitter_fire event s
  | PauseableEmitterClass => PauseableEmitter_fire event s
  | DebounceEmitterClass => DebounceEmitter_fire event s
  end.

(** One call of a script.  [pause] and [resume] do not exist on a plain
    [Emitter]; calling them there is a [TypeError]. *)
Definition perform (a : action) (s : state) : result :=
  match a with
  | AThrow e => Thrown e s
  | AFire event => fire event s
  | ASubscribe site cb => Returned (subscribe site cb s)
  | ARelease id => Returned (release id s)
  | ADispose => Returned (dispose s)
  | APause =>
      match class (cfg s) with
      | EmitterClass => Thrown "TypeError" s
      | _ => Returned (pause s)
      end
  | AResume =>
      match class (cfg s) with
      | EmitterClass => Thrown "TypeError" s
      | _ => resume s
      end
  | ASetGlobalLeakWarningThreshold n => Returned (set_global n s)
  end.

Fixpoint run (script : list action) (s : state) : result :=
  match script with
  | [] => Returned s
  | a :: script => bind (perform a s) (run script)
  end.

(** [listener.invoke(e)] *)
Definition invoke (l : Listener) (e : T) (s : state) : result :=
  run (callback l e) (emit (Invoked (lid l) e) s).

(** One round of a loop; [continue] re-enters it. *)
Definition iterate (w : loop) (s : state) : result :=
  match w with
  | Deliver =>
      (* while (this._deliveryQueue.size > 0) *)
      match _deliveryQueue s with
      | Some ((listener, event) :: q) =>
          let s := set_deliveryQueue (Some q) s in
          match invoke listener event s with
          | Returned s => rec Deliver s
          | Thrown e s => rec Deliver (onUnexpectedError e s)
          | OutOfFuel s => OutOfFuel s
          end
      | _ => Returned s
      end
  | Flush =>
      (* while (!this._isPaused && this._eventQueue.size !== 0) *)
      match _isPaused s, _eventQueue s with
      | O, event :: q =>
          bind (Emitter_fire event (set_eventQueue q s)) (rec Flush)
      | _, _ => Returned s
      end
  end.

End Calls.

Fixpoint loops (fuel : nat) (w : loop) (s : state) : result :=
  match fuel with
  | O => OutOfFuel s
  | S fuel => iterate (loops fuel) w s
  end.

(** The timeout callback of [DebounceEmitter.fire]. *)
Definition onTimeout (fuel : nat) (s : state) : result :=
  resume (loops fuel) (set_handle None s).

(** The timeouts that are due by time [t] run, each at its due time: the
    pending one first, then the one that a [fire] made from its callback
    has started, if that one is due by [t] as well, and so on; [n] bounds
    how many are run. *)
Fixpoint timeouts (n fuel : nat) (t : Z) (s : state) : result :=
  match _handle s with
  | Some due =>
      if due <=? t
      then match n with
           | O => OutOfFuel s
           | S n => bind (onTimeout fuel (set_clock (Z.max (clock s) due) s))
                         (timeouts n fuel t)
           end
      else Returned s
  | None => Returned s
  end.

(** Let time pass until [t]; the timeouts that are due by then run first. *)
Definition advanceTo (fuel : nat) (t : Z) (s : state) : result :=
  bind (timeouts fuel fuel t s) (fun s => Returned (set_clock (Z.max (clock s) t) s)).

End Emitter.

Arguments action : clear implicits.
Arguments Listener : clear implicits.
Arguments logEntry : clear implicits.
Arguments config : clear implicits.
Arguments state : clear implicits.
Arguments result : clear implicits.

(** ** Reading the log *)

Section Observations.
Context {T : Type}.

(** How often listener [id] was invoked. *)
Fixpoint invocations (id : nat) (l : list (logEntry T)) : nat :=
  match l with
  | [] => 0
  | Invoked id' _ :: l' => (if decide (id' = id) then 1 else 0) + invocations id l'
  | _ :: l' => invocations id l'
  end.

(** The payloads delivered to listeners, in order. *)
Fixpoint emissions (l : list (logEntry T)) : list (nat * T) :=
  match l with
  | [] => []
  | Invoked id e :: l' => (id, e) :: emissions l'
  | _ :: l' => emissions l'
  end.

(** The leak warnings printed, in order. *)
Fixpoint warnings (l : list (logEntry T)) : list warning :=
  match l with
  | [] => []
  | Warned w :: l' => w :: warnings l'
  | _ :: l' => warnings l'
  end.

(** The errors that reached the error sink, in order. *)
Fixpoint reports (l : list (logEntry T)) : list string :=
  match l with
  | [] => []
  | Reported e :: l' => e :: reports l'
  | _ :: l' => reports l'
  end.

(** Entries of listener [id] that wait in the delivery queue. *)
Definition queued (id : nat) (q : option (list (Listener T * T))) : nat :=
  length (filter (fun p => lid (fst p) = id) (default [] q)).

Definition subscribed (id : nat) (ls : option (list (Listener T))) : Prop :=
  id ∈ map lid (default [] ls).

(** *** The atomic state changes of the embedding

    Every function above moves the state by a sequence of these. *)
Inductive step : state T -> state T -> Prop :=
| step_subscribe site cb s : step s (subscribe site cb s)
| step_release id s : step s (release id s)
| step_dispose s : step s (dispose s)
| step_isPaused n s : step s (set_isPaused n s)
| step_global n s : step s (set_global n s)
| step_eventQueue q s : step s (set_eventQueue q s)
| step_handle h s : step s (set_handle h s)
| step_clock t s : step s (set_clock t s)
| step_enqueue ls event s :
    _listeners s = Some ls ->
    step s (perfMon_start
              (set_deliveryQueue
                 (Some (default [] (_deliveryQueue s) ++ map (fun l => (l, event)) ls)) s))
| step_dequeue l event q s :
    _deliveryQueue s = Some ((l, event) :: q) ->
    step s (emit (Invoked (lid l) event) (set_deliveryQueue (Some q) s))
| step_report e s : step s (onUnexpectedError e s)
| step_perfMon_stop s : step s (perfMon_stop s).

Definition reaches : state T -> state T -> Prop := rtc step.

End Observations.

(** ** Derived notions used by the statements *)

Section Notions.
Context {T : Type}.
Implicit Types (s : state T) (q : list (Listener T * T)) (script : list (action T)).

(** Entries that are no listener invocation. *)
Definition silent (entries : list (logEntry T)) : Prop := emissions entries = [].

(** A listener is retired once its number has been handed out and it is no
    longer in the listener set. *)
Definition retired (id : nat) s : Prop :=
  (id < nextId s)%nat /\ ~ subscribed id (_listeners s).

(** What listener [id] has received plus what still waits for it. *)
Definition pending (id : nat) s : nat :=
  (invocations id (log s) + queued id (_deliveryQueue s))%nat.

(** *** Listeners that do not fire, subscribe or release

    A tame callback returns at once, throws, or calls [pause()] and
    returns. *)

Definition thrown script : option string :=
  match script with AThrow e :: _ => Some e | _ => None end.

Definition paused script : nat :=
  match script with [APause] => 1 | _ => 0 end.

Definition tame (c : emitterClass) script : Prop :=
  script = [] \/ (exists e rest, script = AThrow e :: rest)
  \/ (script = [APause] /\ c <> EmitterClass).

(** The decidable form of [tame], and the callbacks that only return or
    throw. *)
Definition tameb (c : emitterClass) script : bool :=
  match script with
  | [] => true
  | AThrow _ :: _ => true
  | [APause] => match c with EmitterClass => false | _ => true end
  | _ => false
  end.

Definition passiveb script : bool :=
  match script with
  | [] => true
  | AThrow _ :: _ => true
  | _ => false
  end.

(** What one queue entry adds to the log. *)
Definition trace1 (p : Listener T * T) : list (logEntry T) :=
  Invoked (lid (fst p)) (snd p)
  :: match thrown (callback (fst p) (snd p)) with
     | Some e => [Reported e]
     | None => []
     end.

Definition trace q : list (logEntry T) := flat_map trace1 q.

Definition pausers q : nat :=
  foldr (fun p n => (paused (callback (fst p) (snd p)) + n)%nat) 0%nat q.

(** The state after the loop has worked through the tame entries [q] at the
    front of the delivery queue, with [rest] still waiting. *)
Definition attended q (rest : list (Listener T * T)) s : state T :=
  set_isPaused (_isPaused s + pausers q)
    (set_log (log s ++ trace q) (set_deliveryQueue (Some rest) s)).

Definition delivered q s : state T := attended q [] s.

(** [Emitter.fire] on a quiescent emitter whose listeners are tame. *)
Definition dispatched (ls : list (Listener T)) (event : T) s : state T :=
  perfMon_stop (delivered (map (fun l => (l, event)) ls)
                  (perfMon_start (set_deliveryQueue (Some (map (fun l => (l, event)) ls)) s))).

End Notions.

(** A burst: each payload is fired once the clock has reached its time. *)
Fixpoint fireAt {T} (fuel : nat) (fires : list (Z * T)) (s : state T) : result T :=
  match fires with
  | [] => Returned s
  | (t, event) :: fires =>
      bind (advanceTo fuel t s)
           (fun s => bind (fire (loops fuel) event s) (fireAt fuel fires))
  end.

(** Successive calls of [check], as successive subscriptions make them;
    the warnings they print are collected in order. *)
Fixpoint checks (global : Q) (calls : list (string * nat)) (m : LeakageMonitor)
  : LeakageMonitor * list warning :=
  match calls with
  | [] => (m, [])
  | (stack, listenerCount) :: calls =>
      let '(m', w, _) := LeakageMonitor_check global stack listenerCount m in
      let '(m'', ws) := checks global calls m' in
      (m'', match w with Some w => w :: ws | None => ws end)
  end.

(** The warning names a capture site whose tally is the largest. *)
Definition names_most_frequent (w : warning) (m : LeakageMonitor) : Prop :=
  exists site,
    warn_topStack w = Some site
    /\ tally site (default [] (_stacks m)) = warn_topCount w
    /\ forall site', tally site' (default [] (_stacks m)) <= warn_topCount w.

(** ** AsyncEmitter

    [fireAsync] is an [async] function: it runs until its first [await],
    and its continuation runs later, once the awaited promise has settled.
    The embedding keeps, per call of [fireAsync], where it is suspended;
    per listener turn, the [thenables] array that the [waitUntil] closure
    of that turn captured; and which promises have settled and how.  What
    the event loop and the environment do is an [event]; promises,
    cancellation tokens, turns and calls are named by numbers; of a
    [CancellationToken] (vs/base/common/cancellation, not among the
    sources) only [isCancellationRequested] is read.  Listener callbacks of
    this module join promises or throw; subscribing here is [Emitter]'s,
    without hooks and monitor. *)

Module Async.
Section AsyncEmitter.
Context {D : Type}.

Inductive outcome := Fulfilled | Rejected (reason : string).

(** What a listener does during the synchronous part of its turn. *)
Inductive action :=
| WaitUntil (p : nat)     (* event.waitUntil(p) *)
| Throw (e : string).     (* throw new Error(e) *)

Record Listener := { lid : nat; callback : D -> list action }.

(** The [thenables] array of one turn, with what its [waitUntil] closure
    captured beside it. *)
Record turn := {
  thenables : list nat;
  isFrozen : bool;
  join : option (nat -> nat -> nat);    (* promiseJoin *)
  listener : nat                        (* listener.callback *)
}.

Inductive status := Awaiting (k : nat) | Finished.

(** One call of [fireAsync]. *)
Record call := {
  token : nat;
  promiseJoin : option (nat -> nat -> nat);
  at_ : status
}.

Inductive logEntry :=
| Invoked (c : nat) (id : nat) (data : D)   (* call c entered listener.invoke *)
| Reported (e : string)                     (* onUnexpectedError(e) *)
| Uncaught (e : string).                    (* an error thrown into asynchronous code *)

Record state := {
  _listeners : option (list Listener);
  _asyncDeliveryQueue : option (list (Listener * D));
  settled : gmap nat outcome;           (* a promise that is absent is pending *)
  cancelled : gset nat;                 (* tokens with isCancellationRequested *)
  turns : list turn;
  calls : list call;
  log : list logEntry
}.

Definition set_listeners (l : option (list Listener)) (s : state) : state :=
  {| _listeners := l; _asyncDeliveryQueue := _asyncDeliveryQueue s; settled := settled s;
     cancelled := cancelled s; turns := turns s; calls := calls s; log := log s |}.

Definition set_asyncDeliveryQueue (q : option (list (Listener * D))) (s : state) : state :=
  {| _listeners := _listeners s; _asyncDeliveryQueue := q; settled := settled s;
     cancelled := cancelled s; turns := turns s; calls := calls s; log := log s |}.

Definition set_settled (m : gmap nat outcome) (s : state) : state :=
  {| _listeners := _listeners s; _asyncDeliveryQueue := _asyncDeliveryQueue s; settled := m;
     cancelled := cancelled s; turns := turns s; calls := calls s; log := log s |}.

Definition set_cancelled (c : gset nat) (s : state) : state :=
  {| _listeners := _listeners s; _asyncDeliveryQueue := _asyncDeliveryQueue s;
     settled := settled s; cancelled := c; turns := turns s; calls := calls s; log := log s |}.

Definition set_turns (t : list turn) (s : state) : state :=
  {| _listeners := _listeners s; _asyncDeliveryQueue := _asyncDeliveryQueue s;
     settled := settled s; cancelled := cancelled s; turns := t; calls := calls s;
     log := log s |}.

Definition set_calls (c : list call) (s : state) : state :=
  {| _listeners := _listeners s; _asyncDeliveryQueue := _asyncDeliveryQueue s;
     settled := settled s; cancelled := cancelled s; turns := turns s; calls := c;
     log := log s |}.

Definition emit (e : logEntry) (s : state) : state :=
  {| _listeners := _listeners s; _asyncDeliveryQueue := _asyncDeliveryQueue s;
     settled := settled s; cancelled := cancelled s; turns := turns s; calls := calls s;
     log := log s ++ [e] |}.

Definition new_AsyncEmitter : state :=
  {| _listeners := None; _asyncDeliveryQueue := None; settled := ∅; cancelled := ∅;
     turns := []; calls := []; log := [] |}.

Definition subscribe (cb : D -> list action) (s : state) : state :=
  let ls := default [] (_listeners s) in
  set_listeners (Some (ls ++ [{| lid := length ls; callback := cb |}])) s.

Definition late_join : string := "waitUntil can NOT be called asynchronous".

(** The [waitUntil] closure of turn [k], applied to promise [p]: the new
    state, and the error if it throws. *)
Definition waitUntil (k p : nat) (s : state) : state * option string :=
  match turns s !! k with
  | Some t =>
      if isFrozen t then (s, Some late_join)
      else
        let p := match join t with Some f => f p (listener t) | None => p end in
        (set_turns (<[k := {| thenables := thenables t ++ [p]; isFrozen := false;
                              join := join t; listener := listener t |}]> (turns s)) s,
         None)
  | None => (s, None)
  end.

(** The synchronous body of the listener of turn [k]. *)
Fixpoint run (k : nat) (script : list action) (s : state) : state * option string :=
  match script with
  | [] => (s, None)
  | WaitUntil p :: script =>
      match waitUntil k p s with
      | (s, None) => run k script s
      | (s, Some e) => (s, Some e)
      end
  | Throw e :: _ => (s, Some e)
  end.

(** [Object.freeze(thenables)] *)
Definition freeze (k : nat) (s : state) : state :=
  set_turns (alter (fun t => {| thenables := thenables t; isFrozen := true;
                                join := join t; listener := listener t |}) k (turns s)) s.

Definition set_status (c : nat) (st : status) (s : state) : state :=
  set_calls (alter (fun x => {| token := token x; promiseJoin := promiseJoin x;
                                 at_ := st |}) c (calls s)) s.

(** Modelled from the spec: the error sink, as for [Emitter]. *)
Definition onUnexpectedError (e : string) (s : state) : state := emit (Reported e) s.

(** The [while] loop of [fireAsync], from its head to the next [await] or
    to the end of the function.  [q] is the content of the delivery queue
    at the head of the loop; it is passed along so that the recursion is
    structural, and stored back whenever the source changes the queue. *)
Fixpoint loop (c tok : nat) (pj : option (nat -> nat -> nat))
    (q : list (Listener * D)) (s : state) : state :=
  match q with
  | [] => set_status c Finished s
  | (l, data) :: q' =>
      if decide (tok ∈ cancelled s) then set_status c Finished s
      else
        let s := set_asyncDeliveryQueue (Some q') s in
        let k := length (turns s) in
        let s := set_turns (turns s ++ [{| thenables := []; isFrozen := false;
                                           join := pj; listener := lid l |}]) s in
        match run k (callback l data) (emit (Invoked c (lid l) data) s) with
        | (s, Some e) => loop c tok pj q' (onUnexpectedError e s)     (* catch; continue *)
        | (s, None) => set_status c (Awaiting k) (freeze k s)         (* freeze; await *)
        end
  end.

(** Enter or re-enter the loop of call [c]. *)
Definition drive (c : nat) (s : state) : state :=
  match calls s !! c with
  | Some x => loop c (token x) (promiseJoin x) (default [] (_asyncDeliveryQueue s)) s
  | None => s
  end.

(** [emitter.fireAsync(data, token, promiseJoin)], up to its first
    [await]; the call gets the number [length (calls s)]. *)
Definition fireAsync (data : D) (tok : nat) (pj : option (nat -> nat -> nat))
    (s : state) : state :=
  let c := length (calls s) in
  match _listeners s with
  | None => set_calls (calls s ++ [{| token := tok; promiseJoin := pj; at_ := Finished |}]) s
  | Some ls =>
      let s := set_calls (calls s ++ [{| token := tok; promiseJoin := pj; at_ := Finished |}]) s in
      let s := set_asyncDeliveryQueue
                 (Some (default [] (_asyncDeliveryQueue s) ++ map (fun l => (l, data)) ls)) s in
      drive c s
  end.

Definition isSettled (s : state) (p : nat) : bool :=
  match settled s !! p with Some _ => true | None => false end.

(** The reasons of the rejected promises among [ps], in order. *)
Definition rejections (s : state) (ps : list nat) : list string :=
  omap (fun p => match settled s !! p with
                 | Some (Rejected reason) => Some reason
                 | _ => None
                 end) ps.

(** The continuation of call [c] behind
    [await Promise.allSettled(thenables).then(...)]: it runs only when every
    promise of the turn has settled, reports each rejection and goes back
    to the head of the loop. *)
Definition wake (c : nat) (s : state) : state :=
  match calls s !! c with
  | Some {| at_ := Awaiting k |} =>
      let ps := default [] (thenables <$> turns s !! k) in
      if forallb (isSettled s) ps
      then drive c (foldl (fun s e => onUnexpectedError e s) s (rejections s ps))
      else s
  | _ => s
  end.

(** What happens around the emitter. *)
Inductive event :=
| ESubscribe (cb : D -> list action)
| EFireAsync (data : D) (tok : nat) (pj : option (nat -> nat -> nat))
| ESettle (p : nat) (o : outcome)        (* a pending promise settles *)
| ECancel (tok : nat)                    (* the token source is cancelled *)
| EWake (c : nat)                        (* the event loop resumes call c *)
| ELateWaitUntil (k p : nat).            (* asynchronous code calls turn k's waitUntil *)

Definition step (ev : event) (s : state) : state :=
  match ev with
  | ESubscribe cb => subscribe cb s
  | EFireAsync data tok pj => fireAsync data tok pj s
  | ESettle p o =>
      match settled s !! p with
      | None => set_settled (<[p := o]> (settled s)) s
      | Some _ => s
      end
  | ECancel tok => set_cancelled ({[tok]} ∪ cancelled s) s
  | EWake c => wake c s
  | ELateWaitUntil k p =>
      match waitUntil k p s with
      | (s, Some e) => emit (Uncaught e) s
      | (s, None) => s
      end
  end.

Definition exec (evs : list event) (s : state) : state :=
  foldl (fun s ev => step ev s) s evs.

(** The listeners that call [c] has invoked, in order. *)
Fixpoint invokedBy (c : nat) (l : list logEntry) : list (nat * D) :=
  match l with
  | [] => []
  | Invoked c' id data :: l' =>
      if decide (c' = c) then (id, data) :: invokedBy c l' else invokedBy c l'
  | _ :: l' => invokedBy c l'
  end.

Fixpoint reports (l : list logEntry) : list string :=
  match l with
  | [] => []
  | Reported e :: l' => e :: reports l'
  | _ :: l' => reports l'
  end.

(** Call [c] is suspended on a turn that joined promise [p], and [p] is
    still pending. *)
Definition blockedOn (c p : nat) (s : state) : Prop :=
  exists x k t,
    calls s !! c = Some x /\ at_ x = Awaiting k
    /\ turns s !! k = Some t /\ p ∈ thenables t /\ settled s !! p = None.

End AsyncEmitter.

Arguments action : clear implicits.
Arguments Listener : clear implicits.
Arguments logEntry : clear implicits.
Arguments state : clear implicits.
Arguments event : clear implicits.

End Async.

(** ** Scenarios used by the examples *)

Definition quiet : Z -> list (action Z) := fun _ => [].
Definition faulty : Z -> list (action Z) := fun _ => [AThrow "boom"].

(** A plain emitter with three listeners of which the middle one throws,
    caught in the middle of a dispatch of payload 7. *)
Definition three_listeners : state Z :=
  final (run (loops 0) [ASubscribe "a" quiet; ASubscribe "b" faulty; ASubscribe "c" quiet]
           (new_Emitter (-1) no_options)).

Definition mid_dispatch : state Z :=
  set_deliveryQueue
    (Some (map (fun l => (l, 7)) (default [] (_listeners three_listeners))))
    three_listeners.

(** The same emitter during the turn of its first listener in [fire(7)],
    after that listener has released all three subscriptions. *)
Definition deserted_mid_dispatch : state Z :=
  release 2 (release 1 (release 0
    (set_deliveryQueue
       (Some (map (fun l => (l, 7)) (drop 1 (default [] (_listeners three_listeners)))))
       three_listeners))).

Definition first_listener : Listener Z :=
  {| lid := 0; callback := quiet; stack := None |}.

Definition third_listener : Listener Z :=
  {| lid := 2; callback := quiet; stack := None |}.

(** An emitter whose only listener has been released. *)
Definition abandoned (options : EmitterOptions) : state Z :=
  final (run (loops 0) [ASubscribe "a" quiet; ARelease 0] (new_Emitter (-1) options)).

Definition profiled_options : EmitterOptions :=
  {| onFirstListenerAdd := false; onFirstListenerDidAdd := false;
     onListenerDidAdd := false; onLastListenerRemove := false;
     leakWarningThreshold := None; _profName := Some "p" |}.

Definition override_options (n : Q) : EmitterOptions :=
  {| onFirstListenerAdd := false; onFirstListenerDidAdd := false;
     onListenerDidAdd := false; onLastListenerRemove := false;
     leakWarningThreshold := Some n; _profName := None |}.

(** Listener 0 releases listener 1 when it sees payload 1. *)
Definition releasing : state Z :=
  final (run (loops 0)
           [ASubscribe "a" (fun e => if e =? 1 then [ARelease 1] else []);
            ASubscribe "b" quiet]
           (new_Emitter (-1) no_options)).

(** Listener 0 releases listener 2 and listener 1 disposes the emitter
    when they see payload 7. *)
Definition disposing : state Z :=
  final (run (loops 0)
           [ASubscribe "a" (fun e => if e =? 7 then [ARelease 2] else []);
            ASubscribe "b" (fun e => if e =? 7 then [ADispose] else []);
            ASubscribe "c" quiet]
           (new_Emitter (-1) no_options)).

(** [pause(); fire(1); fire(2)] on a pausable emitter with one listener. *)
Definition paused_with_two : state Z :=
  final (run (loops 0) [ASubscribe "a" quiet; APause; AFire 1; AFire 2]
           (new_PauseableEmitter (-1) no_options None)).

(** The merge function of the examples: how many payloads were merged. *)
Definition count (events : list Z) : Z := Z.of_nat (length events).

(** A debounce emitter with delay 50 and one listener, at time 0. *)
Definition debouncing : state Z :=
  final (run (loops 0) [ASubscribe "a" quiet]
           (new_DebounceEmitter (-1) 0 no_options count (Some 50))).

(** The same emitter after its owner has called [pause()]. *)
Definition owner_paused : state Z :=
  final (run (loops 0) [ASubscribe "a" quiet; APause]
           (new_DebounceEmitter (-1) 0 no_options count (Some 50))).

(** A debounce emitter whose listener fires 9 back when it receives the
    merge of a single payload. *)
Definition rearming : state Z :=
  final (run (loops 0) [ASubscribe "a" (fun e => if e =? 1 then [AFire 9] else [])]
           (new_DebounceEmitter (-1) 0 no_options count (Some 50))).

Section AsyncScenarios.
Import Async.
Local Open Scope nat_scope.

(** Listener 0 joins promise 1, listener 1 joins promise 2. *)
Definition two_joiners : Async.state Z :=
  exec [ESubscribe (fun _ => [WaitUntil 1]); ESubscribe (fun _ => [WaitUntil 2])]
       new_AsyncEmitter.


(** Listener 0 joins promise 1 and then throws; listener 1 does nothing. *)
Definition joiner_that_throws : Async.state Z :=
  exec [ESubscribe (fun _ => [WaitUntil 1; Throw "x"]); ESubscribe (fun _ => [])]
       new_AsyncEmitter.

(** [fireAsync(7, token 0)] at the head of its loop: the call is
    registered as call 0 and the listeners are queued. *)
Definition entering (s : Async.state Z) : Async.state Z :=
  set_asyncDeliveryQueue (Some (map (fun l => (l, 7%Z)) (default [] (Async._listeners s))))
    (set_calls [{| token := 0; promiseJoin := None; at_ := Finished |}] s).

Definition first_joiner : Async.Listener Z :=
  {| Async.lid := 0; Async.callback := fun _ => [WaitUntil 1] |}.

Definition second_joiner : Async.Listener Z :=
  {| Async.lid := 1; Async.callback := fun _ => [WaitUntil 2] |}.

Definition thrower : Async.Listener Z :=
  {| Async.lid := 0; Async.callback := fun _ => [WaitUntil 1; Throw "x"] |}.

Definition bystander : Async.Listener Z :=
  {| Async.lid := 1; Async.callback := fun _ => [] |}.

End AsyncScenarios.

(** * Proofs *)

(** ** General lemmas *)

Section Lemmas.
Context {T : Type}.
Implicit Types (s : state T) (r : result T) (w : loop).

Lemma final_bind r (k : state T -> result T) :
  final (bind r k) = match r with Returned s => final (k s) | _ => final r end.
Proof. by destruct r. Qed.

Lemma reaches_bind s r (k : state T -> result T) :
  reaches s (final r) ->
  (forall s', reaches s' (final (k s'))) ->
  reaches s (final (bind r k)).
Proof.
  intros Hr Hk. rewrite final_bind. destruct r; simpl in *; auto.
  eapply rtc_trans; [exact Hr | apply Hk].
Qed.

Section WithRec.
Variable rec : loop -> state T -> result T.
Hypothesis rec_reaches : forall w s, reaches s (final (rec w s)).

Lemma Emitter_fire_reaches event s : reaches s (final (Emitter_fire rec event s)).
Proof.
  unfold Emitter_fire. destruct (_listeners s) as [ls|] eqn:Hls; [|apply rtc_refl].
  cbv zeta. eapply rtc_l.
  { apply (step_enqueue ls event s Hls). }
  match goal with |- rtc step ?a (final (bind (rec Deliver ?b) _)) =>
    replace b with a by (destruct (_deliveryQueue s) eqn:E; simpl; rewrite ?E; reflexivity) end.
  apply reaches_bind; [apply rec_reaches|].
  intros s'. simpl. apply rtc_once, step_perfMon_stop.
Qed.

Lemma resume_reaches s : reaches s (final (resume rec s)).
Proof.
  unfold resume. destruct (_isPaused s) as [|n] eqn:Hp; [apply rtc_refl|].
  eapply rtc_l; [apply (step_isPaused n)|].
  destruct n; [|apply rtc_refl].
  cbn [cfg set_isPaused].
  destruct (_mergeFn (cfg s)) as [merge|]; [|apply rec_reaches].
  eapply rtc_l; [apply (step_eventQueue [])|].
  apply Emitter_fire_reaches.
Qed.

Lemma PauseableEmitter_fire_reaches event s :
  reaches s (final (PauseableEmitter_fire rec event s)).
Proof.
  unfold PauseableEmitter_fire. destruct (_listeners s); [|apply rtc_refl].
  destruct (_isPaused s); [apply Emitter_fire_reaches|].
  apply rtc_once, step_eventQueue.
Qed.

Lemma fire_reaches event s : reaches s (final (fire rec event s)).
Proof.
  unfold fire. destruct (class (cfg s)).
  - apply Emitter_fire_reaches.
  - apply PauseableEmitter_fire_reaches.
  - unfold DebounceEmitter_fire. destruct (_handle s).
    + apply PauseableEmitter_fire_reaches.
    + eapply rtc_l; [apply (step_isPaused (S (_isPaused s)))|].
      eapply rtc_l; [apply (step_handle (Some (clock s + setTimeout_after (_delay (cfg s)))))|].
      apply PauseableEmitter_fire_reaches.
Qed.

Lemma perform_reaches a s : reaches s (final (perform rec a s)).
Proof.
  destruct a; simpl; try apply rtc_refl.
  - apply fire_reaches.
  - apply rtc_once, step_subscribe.
  - apply rtc_once, step_release.
  - apply rtc_once, step_dispose.
  - destruct (class (cfg s)); simpl; try apply rtc_refl; apply rtc_once, step_isPaused.
  - destruct (class (cfg s)); simpl; try apply rtc_refl; apply resume_reaches.
  - apply rtc_once, step_global.
Qed.

Lemma run_reaches script s : reaches s (final (run rec script s)).
Proof.
  revert s. induction script as [|a script IH]; intros s; simpl; [apply rtc_refl|].
  apply reaches_bind; [apply perform_reaches | apply IH].
Qed.

Lemma iterate_reaches w s : reaches s (final (iterate rec w s)).
Proof.
  destruct w; simpl.
  - destruct (_deliveryQueue s) as [[|[l event] q]|] eqn:Hq; try apply rtc_refl.
    eapply rtc_l; [apply (step_dequeue l event q s Hq)|].
    unfold invoke.
    pose proof (run_reaches (callback l event)
                  (emit (Invoked (lid l) event) (set_deliveryQueue (Some q) s))) as Hrun.
    destruct (run rec _ _) as [s'|e s'|s']; simpl in *.
    + eapply rtc_trans; [exact Hrun | apply rec_reaches].
    + eapply rtc_trans; [exact Hrun|].
      eapply rtc_l; [apply (step_report e)|apply rec_reaches].
    + exact Hrun.
  - destruct (_isPaused s); [|apply rtc_refl].
    destruct (_eventQueue s) as [|event q]; [apply rtc_refl|].
    eapply rtc_l; [apply (step_eventQueue q)|].
    apply reaches_bind; [apply Emitter_fire_reaches | apply rec_reaches].
Qed.

End WithRec.

Lemma loops_reaches fuel w s : reaches s (final (loops fuel w s)).
Proof.
  revert w s. induction fuel as [|fuel IH]; intros w s; simpl; [apply rtc_refl|].
  apply iterate_reaches, IH.
Qed.

(** Whatever a script does, with whatever fuel, it does by atomic steps. *)
Lemma script_reaches fuel script s : reaches s (final (run (loops fuel) script s)).
Proof. apply run_reaches, loops_reaches. Qed.

End Lemmas.

(** ** What each operation touches *)

Section Frames.
Context {T : Type}.
Implicit Types (s : state T) (l : list (logEntry T)).

Lemma emissions_app l l' : emissions (l ++ l') = emissions l ++ emissions l'.
Proof. induction l as [|[] l IH]; simpl; by rewrite ?IH. Qed.

Lemma warnings_app l l' : warnings (l ++ l') = warnings l ++ warnings l'.
Proof. induction l as [|[] l IH]; simpl; by rewrite ?IH. Qed.

Lemma reports_app l l' : reports (l ++ l') = reports l ++ reports l'.
Proof. induction l as [|[] l IH]; simpl; by rewrite ?IH. Qed.

Lemma invocations_app id l l' :
  invocations id (l ++ l') = (invocations id l + invocations id l')%nat.
Proof. induction l as [|[] l IH]; simpl; rewrite ?IH; lia. Qed.

Lemma silent_invocations id l : silent l -> invocations id l = 0%nat.
Proof.
  unfold silent. induction l as [|[] l IH]; simpl; intros H; try done; by apply IH.
Qed.

(** [subscribe] appends one listener, numbered [nextId], and logs hooks and
    at most a leak warning. *)
Lemma subscribe_spec site cb s :
  exists entries stack,
    log (subscribe site cb s) = log s ++ entries
    /\ silent entries /\ reports entries = []
    /\ (_leakageMon s = None -> warnings entries = [])
    /\ _listeners (subscribe site cb s)
       = Some (default [] (_listeners s)
               ++ [{| lid := nextId s; callback := cb; stack := stack |}])
    /\ _deliveryQueue (subscribe site cb s) = _deliveryQueue s
    /\ nextId (subscribe site cb s) = S (nextId s)
    /\ (_leakageMon s = None -> _leakageMon (subscribe site cb s) = None)
    /\ _disposed (subscribe site cb s) = _disposed s.
Proof.
  unfold subscribe.
  destruct (_listeners s) as [ls|] eqn:Hls; cbn zeta;
    (destruct (_leakageMon _) as [m|] eqn:Hm;
     [ destruct (LeakageMonitor_check _ _ _ m) as [[m' [w|]] rm] | ]);
    unfold call_hook;
    repeat match goal with |- context [if ?b then _ else _] => destruct b end;
    simpl; rewrite ?Hls; simpl;
    eexists _, _;
    (split; [first [rewrite <- ?app_assoc; reflexivity | symmetry; apply app_nil_r]|]);
    repeat split; try done; simpl in *; congruence.
Qed.

Lemma removeListener_not_subscribed id (ls : list (Listener T)) :
  id ∉ map lid (removeListener id ls).
Proof.
  unfold removeListener. intros Hin.
  apply list_elem_of_fmap in Hin as (l & -> & Hl).
  apply list_elem_of_filter in Hl as [Hne _]. done.
Qed.

Lemma removeListener_subset id id' (ls : list (Listener T)) :
  id' ∈ map lid (removeListener id ls) -> id' ∈ map lid ls.
Proof.
  unfold removeListener. intros Hin.
  apply list_elem_of_fmap in Hin as (l & -> & Hl).
  apply list_elem_of_filter in Hl as [_ Hl].
  apply list_elem_of_fmap. eauto.
Qed.

(** [release] never touches the delivery queue; it unlinks the listener
    unless the emitter is disposed. *)
Lemma release_spec id s :
  exists entries,
    log (release id s) = log s ++ entries
    /\ silent entries /\ reports entries = [] /\ warnings entries = []
    /\ _deliveryQueue (release id s) = _deliveryQueue s
    /\ nextId (release id s) = nextId s
    /\ _disposed (release id s) = _disposed s
    /\ (_leakageMon s = None -> _leakageMon (release id s) = None)
    /\ (forall id', subscribed id' (_listeners (release id s)) -> subscribed id' (_listeners s))
    /\ (is_Some (subscriptions s !! id) -> _disposed s = false ->
        ~ subscribed id (_listeners (release id s))).
Proof.
  unfold release.
  destruct (subscriptions s !! id) as [rm|] eqn:Hsub.
  2:{ exists []. rewrite app_nil_r. repeat split; try done. }
  destruct rm as [key|]; simpl;
    (destruct (_disposed s) eqn:Hd; simpl;
     [ exists []; rewrite app_nil_r; repeat split; simpl; try done;
       intros ->; done
     | unfold call_hook;
       match goal with |- context [if ?b then _ else _] => destruct b end;
       simpl; eexists;
       (split; [first [reflexivity | symmetry; apply app_nil_r]|]);
       repeat split; simpl; try done;
       try (intros ->; done);
       try (intros id'; unfold subscribed; simpl;
            destruct (_listeners s); simpl; [apply removeListener_subset | done]);
       try (intros _ _; unfold subscribed; simpl;
            destruct (_listeners s); simpl;
            [apply removeListener_not_subscribed | by intros ?%elem_of_nil]);
       try (by rewrite app_nil_r) ]).
Qed.

(** [dispose] empties the listener set and the delivery queue. *)
Lemma dispose_spec s :
  exists entries,
    log (dispose s) = log s ++ entries
    /\ silent entries /\ reports entries = [] /\ warnings entries = []
    /\ nextId (dispose s) = nextId s
    /\ (_leakageMon s = None -> _leakageMon (dispose s) = None)
    /\ (forall id, subscribed id (_listeners (dispose s)) -> subscribed id (_listeners s))
    /\ (forall id, queued id (_deliveryQueue (dispose s)) <= queued id (_deliveryQueue s))%nat
    /\ (_disposed s = false ->
        (forall id, ~ subscribed id (_listeners (dispose s)))
        /\ (forall id, queued id (_deliveryQueue (dispose s)) = 0%nat)).
Proof.
  unfold dispose. destruct (_disposed s) eqn:Hd.
  { exists []. rewrite app_nil_r. repeat split; try done. }
  unfold call_hook. cbn zeta. simpl.
  destruct (_listeners s) as [ls|] eqn:Hls; simpl;
    match goal with |- context [if ?b then _ else _] => destruct b end;
    simpl; eexists;
    (split; [first [reflexivity | symmetry; apply app_nil_r]|]);
    repeat split; simpl; try done; try (by rewrite app_nil_r);
    try (intros ->; done);
    try (intros id; unfold subscribed; simpl; by intros ?%elem_of_nil);
    try (intros id; unfold queued; destruct (_deliveryQueue s); simpl; lia);
    try (intros id; unfold queued; destruct (_deliveryQueue s); simpl; done);
    rewrite ?Hls; unfold subscribed; simpl; intros id; try done;
    by intros ?%elem_of_nil.
Qed.

End Frames.

(** ** Invariants of execution *)

Section Invariants.
Context {T : Type}.
Implicit Types (s a b : state T).

Lemma perfMon_start_frame s :
  log (perfMon_start s) = log s
  /\ _deliveryQueue (perfMon_start s) = _deliveryQueue s
  /\ _listeners (perfMon_start s) = _listeners s
  /\ nextId (perfMon_start s) = nextId s
  /\ _leakageMon (perfMon_start s) = _leakageMon s.
Proof. unfold perfMon_start. by destruct (_perfMon s). Qed.

Lemma perfMon_stop_frame s :
  exists entries,
    log (perfMon_stop s) = log s ++ entries
    /\ silent entries /\ reports entries = [] /\ warnings entries = []
    /\ _deliveryQueue (perfMon_stop s) = _deliveryQueue s
    /\ _listeners (perfMon_stop s) = _listeners s
    /\ nextId (perfMon_stop s) = nextId s
    /\ _leakageMon (perfMon_stop s) = _leakageMon s.
Proof.
  unfold perfMon_stop. destruct (_perfMon s) as [p|]; [destruct (_stopWatch p)|];
    simpl; eexists;
    (split; [first [reflexivity | symmetry; apply app_nil_r]|]); done.
Qed.

Lemma queued_snapshot id (q : list (Listener T * T)) (ls : list (Listener T)) (event : T) :
  id ∉ map lid ls ->
  queued id (Some (q ++ map (fun l => (l, event)) ls)) = queued id (Some q).
Proof.
  intros Hid. unfold queued. simpl. rewrite filter_app, length_app.
  assert (filter (fun p : Listener T * T => lid (fst p) = id)
            (map (fun l => (l, event)) ls) = []) as ->; [|simpl; lia].
  induction ls as [|l ls IH]; [done|]. simpl.
  rewrite filter_cons_False.
  - apply IH. intros Hin. apply Hid. simpl. by apply list_elem_of_further.
  - simpl. intros Heq. apply Hid. simpl. rewrite Heq. apply list_elem_of_here.
Qed.

(** No step sends a new payload towards a retired listener. *)
Lemma step_retired id a b :
  step a b -> retired id a -> retired id b /\ (pending id b <= pending id a)%nat.
Proof.
  unfold retired, pending. intros Hstep [Hlt Hout].
  destruct Hstep as [site cb s|id' s|s|n s|n s|q s|h s|t s|ls event s Hls|l event q s Hq|e s|s];
    try (simpl; rewrite ?invocations_app; simpl; split; [split|]; done || lia).
  - destruct (subscribe_spec site cb s)
      as (entries & stk & -> & Hsil & _ & _ & -> & -> & -> & _).
    rewrite invocations_app, (silent_invocations _ _ Hsil).
    split; [split; [lia|] | lia].
    unfold subscribed in *. simpl. rewrite map_app. simpl.
    rewrite elem_of_app, list_elem_of_singleton. intros [?| ->]; [done | lia].
  - destruct (release_spec id' s)
      as (entries & -> & Hsil & _ & _ & -> & -> & _ & _ & Hsub & _).
    rewrite invocations_app, (silent_invocations _ _ Hsil).
    split; [split; [lia|] | lia]. intros ?%Hsub. done.
  - destruct (dispose_spec s)
      as (entries & -> & Hsil & _ & _ & -> & _ & Hsub & Hq & _).
    rewrite invocations_app, (silent_invocations _ _ Hsil).
    split; [split; [lia|] | specialize (Hq id); lia]. intros ?%Hsub. done.
  - destruct (perfMon_start_frame
                (set_deliveryQueue
                   (Some (default [] (_deliveryQueue s) ++ map (fun l => (l, event)) ls)) s))
      as (-> & -> & -> & -> & _).
    simpl. split; [split; done|].
    rewrite queued_snapshot.
    + destruct (_deliveryQueue s); simpl; unfold queued; simpl; lia.
    + unfold subscribed in Hout. by rewrite Hls in Hout.
  - simpl. split; [split; done|].
    rewrite invocations_app, Hq. unfold queued. simpl.
    rewrite filter_cons. simpl. destruct (decide (lid l = id)); simpl; lia.
  - destruct (perfMon_stop_frame s)
      as (entries & -> & Hsil & _ & _ & -> & -> & -> & _).
    rewrite invocations_app, (silent_invocations _ _ Hsil).
    split; [split; done | lia].
Qed.

Lemma reaches_retired id a b :
  reaches a b -> retired id a -> retired id b /\ (pending id b <= pending id a)%nat.
Proof.
  intros Hr. induction Hr as [|x y z Hxy _ IH]; [by split|].
  intros Hx. destruct (step_retired _ _ _ Hxy Hx) as [Hy Hle].
  destruct (IH Hy) as [Hz Hle']. split; [done | lia].
Qed.

(** The log only grows. *)
Lemma step_log a b : step a b -> exists entries, log b = log a ++ entries.
Proof.
  intros Hstep.
  destruct Hstep as [site cb s|id' s|s|n s|n s|q s|h s|t s|ls event s Hls|l event q s Hq|e s|s];
    try (exists []; simpl; by rewrite app_nil_r); try (simpl; by eexists).
  - destruct (subscribe_spec site cb s) as (entries & ? & -> & _). by eexists.
  - destruct (release_spec id' s) as (entries & -> & _). by eexists.
  - destruct (dispose_spec s) as (entries & -> & _). by eexists.
  - destruct (perfMon_start_frame
                (set_deliveryQueue
                   (Some (default [] (_deliveryQueue s) ++ map (fun l => (l, event)) ls)) s))
      as (-> & _).
    exists []. simpl. by rewrite app_nil_r.
  - destruct (perfMon_stop_frame s) as (entries & -> & _). by eexists.
Qed.

Lemma reaches_log a b : reaches a b -> exists entries, log b = log a ++ entries.
Proof.
  intros Hr. induction Hr as [x|x y z Hxy _ [e2 IH]].
  - exists []. by rewrite app_nil_r.
  - destruct (step_log _ _ Hxy) as [e1 H1]. exists (e1 ++ e2).
    by rewrite IH, H1, app_assoc.
Qed.

(** Without a leak monitor no step prints a leak warning or creates one. *)
Lemma step_no_monitor a b :
  step a b -> _leakageMon a = None ->
  _leakageMon b = None /\ warnings (log b) = warnings (log a).
Proof.
  intros Hstep Hnone.
  destruct Hstep as [site cb s|id' s|s|n s|n s|q s|h s|t s|ls event s Hls|l event q s Hq|e s|s];
    try (simpl; split; [done|]; by rewrite ?warnings_app, ?app_nil_r).
  - destruct (subscribe_spec site cb s)
      as (entries & ? & -> & _ & _ & Hw & _ & _ & _ & Hm & _).
    split; [by apply Hm|]. by rewrite warnings_app, (Hw Hnone), app_nil_r.
  - destruct (release_spec id' s)
      as (entries & -> & _ & _ & Hw & _ & _ & _ & Hm & _).
    split; [by apply Hm|]. by rewrite warnings_app, Hw, app_nil_r.
  - destruct (dispose_spec s)
      as (entries & -> & _ & _ & Hw & _ & Hm & _).
    split; [by apply Hm|]. by rewrite warnings_app, Hw, app_nil_r.
  - destruct (perfMon_start_frame
                (set_deliveryQueue
                   (Some (default [] (_deliveryQueue s) ++ map (fun l => (l, event)) ls)) s))
      as (-> & _ & _ & _ & ->).
    done.
  - destruct (perfMon_stop_frame s)
      as (entries & -> & _ & _ & Hw & _ & _ & _ & ->).
    split; [done|]. by rewrite warnings_app, Hw, app_nil_r.
Qed.

Lemma reaches_no_monitor a b :
  reaches a b -> _leakageMon a = None ->
  _leakageMon b = None /\ warnings (log b) = warnings (log a).
Proof.
  intros Hr. induction Hr as [|x y z Hxy _ IH]; [done|].
  intros Hx. destruct (step_no_monitor _ _ Hxy Hx) as [Hy Hw].
  destruct (IH Hy) as [Hz Hw']. split; [done | congruence].
Qed.

End Invariants.

(** ** Delivery to listeners that do not fire, subscribe or release

    A tame callback returns at once, throws, or calls [pause()] and
    returns.  For such listeners the loops need only as much fuel as there
    are queue entries, and their result has a closed form. *)

Section Tame.
Context {T : Type}.
Implicit Types (s : state T) (q : list (Listener T * T)) (script : list (action T)).

Lemma deliver_tame_prefix k q rest s :
  _deliveryQueue s = Some (q ++ rest) ->
  Forall (fun p => tame (class (cfg s)) (callback (fst p) (snd p))) q ->
  loops (length q + k) Deliver s = loops k Deliver (attended q rest s).
Proof.
  revert s. induction q as [|[l event] q IH]; intros s Hq Htame.
  - simpl. f_equal. unfold attended. destruct s; simpl in *; subst.
    by rewrite app_nil_r, Nat.add_0_r.
  - inversion Htame as [|? ? Hhd Htl]; subst. simpl in Hhd.
    cbn [length Nat.add loops iterate]. rewrite Hq. cbn [app]. unfold invoke.
    destruct Hhd as [Hs|[(e & rest' & Hs)|[Hs Hc]]]; rewrite Hs; cbn [run perform bind].
    + rewrite IH by done. f_equal.
      unfold attended, trace, pausers. simpl. rewrite Hs. simpl.
      unfold set_isPaused, set_log, set_deliveryQueue, emit; simpl.
      by rewrite <- app_assoc.
    + rewrite IH by done. f_equal.
      unfold attended, trace, pausers. simpl. rewrite Hs. simpl.
      unfold set_isPaused, set_log, set_deliveryQueue, emit, onUnexpectedError; simpl.
      by rewrite <- !app_assoc.
    + cbn [cfg emit set_log set_deliveryQueue].
      assert (loops (length q + k) Deliver
                (pause (emit (Invoked (lid l) event)
                          (set_deliveryQueue (Some (q ++ rest)) s)))
              = loops k Deliver (attended ((l, event) :: q) rest s)) as Hgoal.
      { rewrite IH; [|done|exact Htl]. f_equal.
        unfold attended, trace, pausers; simpl; rewrite Hs; simpl.
        unfold set_isPaused, set_log, set_deliveryQueue, emit, pause; simpl.
        by rewrite <- app_assoc, Nat.add_succ_r. }
      destruct (class (cfg s)); [done|exact Hgoal|exact Hgoal].
Qed.

Lemma deliver_tame fuel q s :
  _deliveryQueue s = Some q ->
  Forall (fun p => tame (class (cfg s)) (callback (fst p) (snd p))) q ->
  (length q < fuel)%nat ->
  loops fuel Deliver s = Returned (delivered q s).
Proof.
  intros Hq Htame Hfuel.
  replace fuel with (length q + S (fuel - length q - 1))%nat by lia.
  rewrite (deliver_tame_prefix _ q []); [|by rewrite app_nil_r|done].
  reflexivity.
Qed.

(** The entry at the head of the delivery queue is invoked, whether or not
    its listener is still subscribed. *)
Lemma deliver_head fuel l event q s :
  _deliveryQueue s = Some ((l, event) :: q) ->
  exists rest,
    log (final (loops (S fuel) Deliver s)) = log s ++ Invoked (lid l) event :: rest.
Proof.
  intros Hq.
  assert (reaches (emit (Invoked (lid l) event) (set_deliveryQueue (Some q) s))
            (final (loops (S fuel) Deliver s))) as Hr.
  { cbn [loops iterate]. rewrite Hq. unfold invoke.
    pose proof (run_reaches (loops fuel) (loops_reaches fuel) (callback l event)
                  (emit (Invoked (lid l) event) (set_deliveryQueue (Some q) s))) as Hrun.
    destruct (run (loops fuel) _ _) as [s'|e s'|s']; simpl in *.
    - eapply rtc_trans; [exact Hrun | apply loops_reaches].
    - eapply rtc_trans; [exact Hrun|].
      eapply rtc_l; [apply (step_report e)|apply loops_reaches].
    - exact Hrun. }
  destruct (reaches_log _ _ Hr) as [rest Hrest]. exists rest.
  rewrite Hrest. simpl. by rewrite <- app_assoc.
Qed.

Lemma tameb_tame c script : tameb c script = true -> tame c script.
Proof.
  unfold tame. destruct script as [|[] [|? ?]]; simpl; intros H; try done; eauto.
  right; right; split; [done|]. by destruct c.
Qed.

Lemma passiveb_tame c script : passiveb script = true -> tame c script.
Proof.
  unfold tame. destruct script as [|[] ?]; simpl; intros H; try done; eauto.
Qed.

Lemma passiveb_paused script : passiveb script = true -> paused script = 0%nat.
Proof. by destruct script as [|[] [|? ?]]. Qed.

Lemma Emitter_fire_tame fuel ls event s :
  _listeners s = Some ls ->
  default [] (_deliveryQueue s) = [] ->
  Forall (fun l => tame (class (cfg s)) (callback l event)) ls ->
  (length ls < fuel)%nat ->
  Emitter_fire (loops fuel) event s = Returned (dispatched ls event s).
Proof.
  intros Hls Hq Htame Hfuel. unfold Emitter_fire. rewrite Hls. cbn zeta.
  assert (default [] (_deliveryQueue
            match _deliveryQueue s with
            | Some _ => s
            | None => set_deliveryQueue (Some []) s
            end) = []) as ->.
  { destruct (_deliveryQueue s) eqn:E; simpl in *; rewrite ?E; done. }
  rewrite app_nil_l.
  assert (set_deliveryQueue (Some (map (fun l => (l, event)) ls))
            match _deliveryQueue s with
            | Some _ => s
            | None => set_deliveryQueue (Some []) s
            end
          = set_deliveryQueue (Some (map (fun l => (l, event)) ls)) s) as ->.
  { by destruct (_deliveryQueue s). }
  rewrite (deliver_tame fuel (map (fun l => (l, event)) ls)).
  - done.
  - unfold perfMon_start. by destruct (_perfMon _).
  - assert (class (cfg (perfMon_start
              (set_deliveryQueue (Some (map (fun l => (l, event)) ls)) s)))
            = class (cfg s)) as ->.
    { unfold perfMon_start. by destruct (_perfMon _). }
    apply Forall_fmap. by apply (Forall_impl _ _ _ Htame).
  - by rewrite length_map.
Qed.

End Tame.

(** ** The claims *)

(** *** Faults of listeners *)

(** C9: during one [Emitter.fire], an exception raised by a listener is
    caught and reported to the error sink, and delivery continues: whatever
    the position of a faulting listener in the delivery queue, every entry
    of the queue is invoked, in order, and the loop returns normally. *)
Theorem C9_listener_fault_is_isolated {T} (s : state T) (q : list (Listener T * T))
    (fuel : nat) :
  _deliveryQueue s = Some q ->
  forallb (fun p => passiveb (callback (fst p) (snd p))) q = true ->
  (length q < fuel)%nat ->
  exists s',
    loops fuel Deliver s = Returned s'
    /\ emissions (log s') = emissions (log s) ++ map (fun p => (lid (fst p), snd p)) q
    /\ reports (log s')
       = reports (log s) ++ omap (fun p => thrown (callback (fst p) (snd p))) q
    /\ _deliveryQueue s' = Some [].
Proof.
  intros Hq Hpass Hfuel. exists (delivered q s).
  split; [|split; [|split]].
  - apply deliver_tame; [done| |done].
    apply Forall_forall. intros p Hp. apply passiveb_tame.
    rewrite forallb_forall in Hpass. apply Hpass. by apply list_elem_of_In.
  - simpl. rewrite emissions_app. f_equal. clear.
    induction q as [|[l e] q IH]; [done|]. unfold trace in *. simpl.
    destruct (thrown _); simpl; by rewrite IH.
  - simpl. rewrite reports_app. f_equal. clear.
    induction q as [|[l e] q IH]; [done|]. unfold trace in *. simpl.
    destruct (thrown _); simpl; by rewrite IH.
  - done.
Qed.

Lemma C9_witness :
  exists s',
    loops 4 Deliver mid_dispatch = Returned s'
    /\ emissions (log s') = [(0%nat, 7); (1%nat, 7); (2%nat, 7)]
    /\ reports (log s') = ["boom"]
    /\ _deliveryQueue s' = Some [].
Proof.
  apply (C9_listener_fault_is_isolated mid_dispatch
           (map (fun l => (l, 7)) (default [] (_listeners three_listeners))) 4).
  - reflexivity.
  - reflexivity.
  - simpl. lia.
Defined.

(** *** Firing with nobody listening *)

Lemma Emitter_fire_idle {T} (s : state T) (event : T) (fuel : nat) :
  LinkedList_size (_listeners s) = 0%nat ->
  default [] (_deliveryQueue s) = [] ->
  (0 < fuel)%nat ->
  exists s',
    Emitter_fire (loops fuel) event s = Returned s'
    /\ log s' = log s ++ match _perfMon s, _listeners s with
                         | Some p, Some _ => [Profiled 0 (_invocationCount p + 1)]
                         | _, _ => []
                         end
    /\ _listeners s' = _listeners s
    /\ (_listeners s = None -> s' = s)
    /\ (_listeners s <> None -> _deliveryQueue s' = Some []).
Proof.
  intros Hsize Hq Hfuel.
  destruct (_listeners s) as [ls|] eqn:Hls.
  - destruct ls; [|done].
    rewrite (Emitter_fire_tame fuel [] event s Hls Hq); [|by apply Forall_nil|simpl; lia].
    eexists. split; [reflexivity|].
    unfold dispatched, delivered, attended, perfMon_stop, perfMon_start. simpl.
    destruct (_perfMon s) as [p|] eqn:Hp; simpl; rewrite ?Hp; simpl;
      rewrite ?app_nil_r; repeat split; try done.
  - exists s. unfold Emitter_fire. rewrite Hls.
    destruct (_perfMon s); rewrite app_nil_r; repeat split; done.
Qed.

(** C3 (amended): on an emitter with zero listeners and no dispatch in
    progress, [fire] invokes no listener, reports no error and leaves the
    listener set as it is.  If no listener was ever subscribed, so that the
    listener set was never created, [fire] changes nothing at all and
    allocates no delivery queue; if the set exists and is empty, [fire]
    does leave an (empty) delivery queue behind. *)
Theorem C3_fire_with_zero_listeners {T} (s : state T) (event : T) (fuel : nat) :
  LinkedList_size (_listeners s) = 0%nat ->
  default [] (_deliveryQueue s) = [] ->
  (0 < fuel)%nat ->
  exists s',
    Emitter_fire (loops fuel) event s = Returned s'
    /\ emissions (log s') = emissions (log s)
    /\ reports (log s') = reports (log s)
    /\ _listeners s' = _listeners s
    /\ (_listeners s = None -> s' = s)
    /\ (_listeners s <> None -> _deliveryQueue s' = Some []).
Proof.
  intros Hsize Hq Hfuel.
  destruct (Emitter_fire_idle s event fuel Hsize Hq Hfuel)
    as (s' & Hfire & Hlog & Hls & Hnone & Hsome).
  exists s'. repeat split; try done.
  - rewrite Hlog, emissions_app.
    destruct (_perfMon s), (_listeners s); simpl; by rewrite app_nil_r.
  - rewrite Hlog, reports_app.
    destruct (_perfMon s), (_listeners s); simpl; by rewrite app_nil_r.
Qed.

Lemma C3_witness :
  exists s',
    Emitter_fire (loops 1) 7 (new_Emitter (-1) no_options) = Returned s'
    /\ emissions (log s') = emissions (log (new_Emitter (T:=Z) (-1) no_options))
    /\ reports (log s') = reports (log (new_Emitter (T:=Z) (-1) no_options))
    /\ _listeners s' = _listeners (new_Emitter (T:=Z) (-1) no_options)
    /\ (_listeners (new_Emitter (T:=Z) (-1) no_options) = None
        -> s' = new_Emitter (-1) no_options)
    /\ (_listeners (new_Emitter (T:=Z) (-1) no_options) <> None
        -> _deliveryQueue s' = Some []).
Proof.
  apply (C3_fire_with_zero_listeners (new_Emitter (-1) no_options) 7 1).
  - reflexivity.
  - reflexivity.
  - lia.
Defined.

(** C3, as stated, fails: an emitter with zero listeners whose listener set
    exists gets a delivery queue allocated by [fire], and a profiled one
    prints a line; and a [fire] made with zero listeners from inside a
    dispatch delivers what that dispatch had left in the queue. *)
Lemma C3_counterexample :
  LinkedList_size (_listeners (abandoned no_options)) = 0%nat
  /\ _deliveryQueue (abandoned no_options) = None
  /\ _deliveryQueue (final (Emitter_fire (loops 1) 7 (abandoned no_options))) = Some []
  /\ LinkedList_size (_listeners (abandoned profiled_options)) = 0%nat
  /\ log (abandoned profiled_options) = []
  /\ log (final (Emitter_fire (loops 1) 7 (abandoned profiled_options))) = [Profiled 0 1]
  /\ LinkedList_size (_listeners deserted_mid_dispatch) = 0%nat
  /\ emissions (log deserted_mid_dispatch) = []
  /\ emissions (log (final (Emitter_fire (loops 3) 9 deserted_mid_dispatch)))
     = [(1%nat, 7); (2%nat, 7)].
Proof. vm_compute. repeat split; reflexivity. Qed.

(** *** Disposal *)

Lemma dispose_idle {T} (s : state T) :
  _disposed s = false ->
  LinkedList_size (_listeners (dispose s)) = 0%nat
  /\ default [] (_deliveryQueue (dispose s)) = []
  /\ emissions (log (dispose s)) = emissions (log s)
  /\ _disposed (dispose s) = true.
Proof.
  intros Hd. unfold dispose, call_hook. rewrite Hd. cbn zeta. simpl.
  destruct (_listeners s) eqn:Hls; simpl; rewrite ?Hls;
    destruct (onLastListenerRemove _); simpl;
    destruct (_deliveryQueue s); simpl;
    rewrite ?emissions_app, ?app_nil_r, ?Hls; repeat split; done.
Qed.

(** After [dispose], nothing whatsoever reaches a listener that was
    subscribed before it. *)
Lemma disposed_listener_is_dead {T} (s : state T) (id fuel : nat) (script : list (action T)) :
  _disposed s = false ->
  (id < nextId s)%nat ->
  invocations id (log (final (run (loops fuel) script (dispose s))))
  = invocations id (log s).
Proof.
  intros Hd Hid.
  destruct (dispose_spec s) as (entries & Hlog & Hsil & _ & _ & Hnext & _ & _ & _ & Hfresh).
  destruct (Hfresh Hd) as [Hout Hqueue].
  pose proof (script_reaches fuel script (dispose s)) as Hr.
  assert (retired id (dispose s)) as Hret.
  { split; [by rewrite Hnext | apply Hout]. }
  destruct (reaches_retired id _ _ Hr Hret) as [_ Hle].
  destruct (reaches_log _ _ Hr) as [more Hmore].
  unfold pending in Hle. rewrite Hqueue in Hle.
  rewrite Hmore, invocations_app in *.
  rewrite Hlog, invocations_app, (silent_invocations _ _ Hsil) in *. lia.
Qed.

(** C5 (amended): [dispose()] is idempotent, and once it has run, a
    [fire] invokes no listener as long as none has been subscribed since;
    whatever else happens afterwards, no listener that was subscribed
    before the [dispose] is ever invoked again. *)
Theorem C5_dispose_idempotent_and_final {T} (s : state T) :
  _disposed s = false ->
  dispose (dispose s) = dispose s
  /\ (forall event fuel, (0 < fuel)%nat ->
        exists s', fire (loops fuel) event (dispose s) = Returned s'
                   /\ emissions (log s') = emissions (log s))
  /\ (forall id fuel script, (id < nextId s)%nat ->
        invocations id (log (final (run (loops fuel) script (dispose s))))
        = invocations id (log s)).
Proof.
  intros Hd. split; [|split].
  - destruct (dispose_idle s Hd) as (_ & _ & _ & Hdone).
    unfold dispose at 1. by rewrite Hdone.
  - intros event fuel Hfuel.
    destruct (dispose_idle s Hd) as (Hsize & Hq & Hem & _).
    set (d := dispose s) in *.
    assert (forall s0, LinkedList_size (_listeners s0) = 0%nat ->
                       default [] (_deliveryQueue s0) = [] ->
                       exists s', PauseableEmitter_fire (loops fuel) event s0 = Returned s'
                                  /\ emissions (log s') = emissions (log s0)) as Hpause.
    { intros s0 Hsize0 Hq0. unfold PauseableEmitter_fire.
      destruct (_listeners s0) eqn:Hls0; [|by exists s0].
      destruct (_isPaused s0); [|by eexists].
      destruct (Emitter_fire_idle s0 event fuel) as (s' & -> & Hlog & _); try done.
      { by rewrite Hls0. }
      exists s'. split; [done|]. rewrite Hlog, emissions_app.
      destruct (_perfMon s0), (_listeners s0); simpl; by rewrite app_nil_r. }
    unfold fire. destruct (class (cfg d)).
    + destruct (Emitter_fire_idle d event fuel) as (s' & -> & Hlog & _); try done.
      exists s'. split; [done|]. rewrite Hlog, emissions_app, <- Hem.
      destruct (_perfMon d), (_listeners d); simpl; by rewrite app_nil_r.
    + destruct (Hpause d Hsize Hq) as (s' & -> & Hlog). exists s'. by rewrite Hlog.
    + unfold DebounceEmitter_fire. destruct (_handle d).
      * destruct (Hpause d Hsize Hq) as (s' & -> & Hlog). exists s'. by rewrite Hlog.
      * destruct (Hpause (set_handle (Some (clock d + setTimeout_after (_delay (cfg d))))
                            (pause d)))
          as (s' & -> & Hlog); [done|done|].
        exists s'. by rewrite Hlog.
  - intros id fuel script Hid. by apply disposed_listener_is_dead.
Qed.

Lemma C5_witness :
  dispose (dispose three_listeners) = dispose three_listeners
  /\ (forall event fuel, (0 < fuel)%nat ->
        exists s', fire (loops fuel) event (dispose three_listeners) = Returned s'
                   /\ emissions (log s') = emissions (log three_listeners))
  /\ (forall id fuel script, (id < nextId three_listeners)%nat ->
        invocations id (log (final (run (loops fuel) script (dispose three_listeners))))
        = invocations id (log three_listeners)).
Proof. apply (C5_dispose_idempotent_and_final three_listeners). reflexivity. Defined.

(** C5, as stated, fails: a listener subscribed after [dispose()] is
    invoked by the next [fire]. *)
Lemma C5_counterexample :
  let s := final (run (loops 0) [ASubscribe "a" quiet; ADispose; ASubscribe "late" quiet]
                    (new_Emitter (-1) no_options)) in
  _disposed s = true
  /\ emissions (log s) = []
  /\ emissions (log (final (fire (loops 2) 1 s))) = [(1%nat, 1)].
Proof. repeat split; reflexivity. Qed.

(** The microtask queued by [dispose] unsets the subscriptions that are
    still set: afterwards their release handles do nothing. *)
Example release_after_dispose_and_microtask :
  let s := runMicrotasks (dispose three_listeners) in
  microtasks s = [] /\ subscriptions s = ∅ /\ release 1 s = s.
Proof. vm_compute. repeat split; reflexivity. Qed.

(** *** The leak monitor exists only under a positive global threshold *)

(** C10: an emitter constructed while the global leak-warning threshold is
    not positive has no leak monitor, whatever [leakWarningThreshold] its
    options carry; it never gets one and never prints a leak warning, for
    any sequence of calls (subscriptions, and later changes of the global
    threshold included).  The per-instance override reaches a monitor only
    when the global threshold was positive at construction. *)
Theorem C10_no_monitor_without_global_threshold {T} (c : emitterClass) (global : Q)
    (now : Z) (options : EmitterOptions) (merge : option (list T -> T)) (delay : Z)
    (fuel : nat) (script : list (action T)) :
  (global <= 0)%Q ->
  _leakageMon (construct c global now options merge delay) = None
  /\ _leakageMon (final (run (loops fuel) script (construct c global now options merge delay)))
     = None
  /\ warnings (log (final (run (loops fuel) script
                             (construct c global now options merge delay)))) = []
  /\ (forall global', (0 < global')%Q ->
        _leakageMon (construct c global' now options merge delay)
        = Some (new_LeakageMonitor (leakWarningThreshold options))).
Proof.
  intros Hglobal.
  assert (_leakageMon (construct c global now options merge delay) = None) as Hnone.
  { simpl. unfold Qlt_bool.
    apply Qle_bool_iff in Hglobal. by rewrite Hglobal. }
  destruct (reaches_no_monitor _ _
              (script_reaches fuel script (construct c global now options merge delay))
              Hnone) as [Hmon Hwarn].
  repeat split; try done.
  intros global' Hpos. simpl. unfold Qlt_bool.
  destruct (Qle_bool global' 0) eqn:Hle; [|done].
  apply Qle_bool_iff in Hle. exfalso. by apply (Qlt_not_le _ _ Hpos).
Qed.

Lemma C10_witness :
  let script := [ASubscribe "a" quiet; ASubscribe "a" quiet; ASubscribe "a" quiet;
                 ASetGlobalLeakWarningThreshold 1; ASubscribe "a" quiet] in
  _leakageMon (construct (T:=Z) EmitterClass 0 0 (override_options 1) None 0) = None
  /\ _leakageMon (final (run (loops 1) script
                           (construct EmitterClass 0 0 (override_options 1) None 0))) = None
  /\ warnings (log (final (run (loops 1) script
                             (construct EmitterClass 0 0 (override_options 1) None 0)))) = []
  /\ (forall global', (0 < global')%Q ->
        _leakageMon (construct (T:=Z) EmitterClass global' 0 (override_options 1) None 0)
        = Some (new_LeakageMonitor (leakWarningThreshold (override_options 1)))).
Proof.
  apply (C10_no_monitor_without_global_threshold (T:=Z) EmitterClass 0 0
           (override_options 1) None 0 1).
  unfold Qle. simpl. lia.
Defined.

(** With a positive global threshold the same override does warn. *)
Example override_warns_under_positive_global :
  warnings (log (final (run (loops 0) [ASubscribe "a" quiet]
                          (new_Emitter (T:=Z) 100 (override_options 1)))))
  = [{| warn_listenerCount := 1; warn_topCount := 1; warn_topStack := Some "a" |}].
Proof. reflexivity. Qed.

(** *** Releasing a listener during a dispatch *)

(** C4 (amended): releasing a listener leaves the delivery queue alone, and
    the loop invokes the entry at the head of the queue whether or not its
    listener is still subscribed; so an entry queued for the listener by a
    dispatch in progress is still invoked when its turn comes, provided
    the listeners whose entries are ahead of it in the queue only return,
    throw or pause.  (A [dispose()] made before its turn clears the queue:
    the listener is then not invoked for the payload in flight, nor ever
    after.)  If the emitter was not disposed when the listener was
    released, then from the release on the listener is invoked only for
    entries that were waiting in the queue at that moment: once these are
    dequeued, and for every later [fire], it is never invoked again. *)
Theorem C4_released_listener {T} (s : state T) (id : nat) (l : Listener T) (event : T)
    (pre post : list (Listener T * T)) (fuel : nat) :
  _deliveryQueue s = Some (pre ++ (l, event) :: post) ->
  lid l = id ->
  forallb (fun p => tameb (class (cfg s)) (callback (fst p) (snd p))) pre = true ->
  (length pre < fuel)%nat ->
  _disposed s = false ->
  is_Some (subscriptions s !! id) ->
  (id < nextId s)%nat ->
  _deliveryQueue (release id s) = _deliveryQueue s
  /\ (forall s1 q1 fuel1,
        _deliveryQueue s1 = Some ((l, event) :: q1) ->
        exists rest,
          log (final (loops (S fuel1) Deliver s1)) = log s1 ++ Invoked id event :: rest)
  /\ (exists rest,
        log (final (loops fuel Deliver (release id s)))
        = log (release id s) ++ trace pre ++ Invoked id event :: rest)
  /\ (forall fuel' script,
        (invocations id (log (final (run (loops fuel') script (release id s))))
         <= invocations id (log (release id s))
            + queued id (_deliveryQueue (release id s)))%nat)
  /\ (forall fuel' script,
        invocations id (log (final (run (loops fuel') script (dispose (release id s)))))
        = invocations id (log (release id s))).
Proof.
  intros Hq Hl Htame Hfuel Hd Hsub Hid.
  destruct (release_spec id s)
    as (entries & Hlog & Hsil & _ & _ & Hqueue & Hnext & Hdisp & _ & _ & Hout).
  split; [done|split; [|split; [|split]]].
  - intros s1 q1 fuel1 Hq1. rewrite <- Hl. by apply (deliver_head fuel1 l event q1).
  - replace fuel with (length pre + S (fuel - length pre - 1))%nat by lia.
    rewrite (deliver_tame_prefix _ pre ((l, event) :: post)).
    + destruct (deliver_head (fuel - length pre - 1) l event post
                  (attended pre ((l, event) :: post) (release id s)))
        as [rest Hrest]; [done|].
      exists rest. rewrite Hrest. simpl. rewrite Hl. by rewrite <- app_assoc.
    + by rewrite Hqueue.
    + assert (class (cfg (release id s)) = class (cfg s)) as ->.
      { unfold release. destruct (subscriptions s !! id) as [[key|]|]; simpl;
          rewrite ?Hd; unfold call_hook; simpl;
          repeat match goal with |- context [if ?b then _ else _] => destruct b end;
          done. }
      apply Forall_forall. intros p Hp. apply tameb_tame.
      rewrite forallb_forall in Htame. apply Htame. by apply list_elem_of_In.
  - intros fuel' script.
    assert (retired id (release id s)) as Hret.
    { split; [by rewrite Hnext | by apply Hout]. }
    destruct (reaches_retired id _ _ (script_reaches fuel' script (release id s)) Hret)
      as [_ Hle].
    unfold pending in Hle. lia.
  - intros fuel' script. apply disposed_listener_is_dead.
    + by rewrite Hdisp.
    + by rewrite Hnext.
Qed.

Lemma C4_witness :
  _deliveryQueue (release 2 mid_dispatch) = _deliveryQueue mid_dispatch
  /\ (forall s1 q1 fuel1,
        _deliveryQueue s1 = Some ((third_listener, 7) :: q1) ->
        exists rest,
          log (final (loops (S fuel1) Deliver s1)) = log s1 ++ Invoked 2 7 :: rest)
  /\ (exists rest,
        log (final (loops 3 Deliver (release 2 mid_dispatch)))
        = log (release 2 mid_dispatch)
          ++ trace (take 2 (default [] (_deliveryQueue mid_dispatch)))
          ++ Invoked 2 7 :: rest)
  /\ (forall fuel' script,
        (invocations 2 (log (final (run (loops fuel') script (release 2 mid_dispatch))))
         <= invocations 2 (log (release 2 mid_dispatch))
            + queued 2 (_deliveryQueue (release 2 mid_dispatch)))%nat)
  /\ (forall fuel' script,
        invocations 2 (log (final (run (loops fuel') script
                                     (dispose (release 2 mid_dispatch)))))
        = invocations 2 (log (release 2 mid_dispatch))).
Proof.
  apply (C4_released_listener mid_dispatch 2 third_listener 7
           (take 2 (default [] (_deliveryQueue mid_dispatch))) [] 3).
  - reflexivity.
  - reflexivity.
  - reflexivity.
  - simpl. lia.
  - reflexivity.
  - by eexists.
  - simpl. lia.
Defined.

(** The whole scenario, end to end: listener 0 releases listener 1 during
    [fire(1)]; listener 1 still receives 1, and does not receive 2. *)
Example released_during_fire :
  emissions (log (final (run (loops 5) [AFire 1; AFire 2] releasing)))
  = [(0%nat, 1); (1%nat, 1); (0%nat, 2)].
Proof. reflexivity. Qed.

(** C4, as stated, fails, in both halves.  A listener subscribed to an
    emitter that is already disposed is not unlinked by its release handle,
    and the next [fire] invokes it.  And a listener that is released while
    its entry waits in the delivery queue is not invoked for the payload in
    flight when a listener ahead of it disposes the emitter: during
    [fire(7)] listener 0 releases listener 2, listener 1 calls [dispose()],
    and listener 2 never sees 7. *)
Lemma C4_counterexample :
  let s := final (run (loops 0) [ADispose; ASubscribe "a" quiet; ARelease 0]
                    (new_Emitter (-1) no_options)) in
  subscriptions s !! 0%nat = None
  /\ _deliveryQueue s = None
  /\ emissions (log s) = []
  /\ emissions (log (final (fire (loops 2) 1 s))) = [(0%nat, 1)]
  /\ map lid (default [] (_listeners disposing)) = [0; 1; 2]%nat
  /\ fire (loops 5) 7 disposing = Returned (final (fire (loops 5) 7 disposing))
  /\ emissions (log (final (fire (loops 5) 7 disposing))) = [(0%nat, 7); (1%nat, 7)].
Proof. vm_compute. repeat split; reflexivity. Qed.

(** *** Leak warnings *)

Lemma check_non_positive global stack n m :
  (default global (customThreshold m) <= 0)%Q ->
  LeakageMonitor_check global stack n m = (m, None, None).
Proof.
  intros Hle. unfold LeakageMonitor_check.
  apply Qle_bool_iff in Hle. by rewrite Hle.
Qed.

Lemma check_countdown global stack n m :
  let '(m', w, _) := LeakageMonitor_check global stack n m in
  match w with
  | Some _ =>
      (_warnCountdown m - 1 <= 0)%Q
      /\ _warnCountdown m' = (default global (customThreshold m) * (1 # 2))%Q
  | None =>
      (_warnCountdown m' = _warnCountdown m
       \/ (0 < _warnCountdown m - 1)%Q /\ _warnCountdown m' = (_warnCountdown m - 1)%Q)
  end
  /\ customThreshold m' = customThreshold m.
Proof.
  unfold LeakageMonitor_check.
  destruct (Qle_bool _ 0 || Qlt_bool _ _); [by split; [left|]|].
  destruct (Qle_bool (_warnCountdown m - 1) 0) eqn:Hc.
  - destruct (topOf _ None 0) as [topStack topCount]. simpl.
    split; [|done]. split; [|done]. by apply Qle_bool_iff.
  - simpl. split; [|done]. right. split; [|done].
    apply Qnot_le_lt. intros Hle. apply Qle_bool_iff in Hle. congruence.
Qed.

(** While the countdown exceeds the number of calls, none of them warns. *)
Lemma checks_rate_limited global calls m :
  (Qnat (length calls) < _warnCountdown m)%Q ->
  snd (checks global calls m) = [].
Proof.
  revert m. induction calls as [|[stack n] calls IH]; intros m Hlt; [done|].
  simpl. pose proof (check_countdown global stack n m) as Hcheck.
  destruct (LeakageMonitor_check global stack n m) as [[m' w] rm].
  assert (Qnat (S (length calls)) == Qnat (length calls) + 1)%Q as Hsucc.
  { unfold Qnat. rewrite Nat2Z.inj_succ. unfold Z.succ. rewrite inject_Z_plus. reflexivity. }
  cbn [length] in Hlt. rewrite Hsucc in Hlt.
  assert (0 <= Qnat (length calls))%Q as Hnonneg.
  { unfold Qnat. change 0%Q with (inject_Z 0). rewrite <- Zle_Qle. lia. }
  destruct Hcheck as [Hcheck _].
  destruct w as [w|].
  - destruct Hcheck as [Hle _]. exfalso. lra.
  - specialize (IH m').
    destruct (checks global calls m') as [m'' ws]. simpl in *. apply IH.
    destruct Hcheck as [-> | [_ ->]]; lra.
Qed.

Lemma checks_non_positive global calls m :
  (default global (customThreshold m) <= 0)%Q ->
  checks global calls m = (m, []).
Proof.
  intros Hle. induction calls as [|[stack n] calls IH]; [done|].
  simpl. rewrite (check_non_positive _ _ _ _ Hle). by rewrite IH.
Qed.

(** What [subscribe] does with the monitor, when there is one. *)
Lemma subscribe_with_monitor {T} site (cb : T -> list (action T)) (s : state T) m :
  _leakageMon s = Some m ->
  let '(m', w, _) :=
    LeakageMonitor_check (_globalLeakWarningThreshold s) site
                         (LinkedList_size (_listeners s) + 1) m in
  _leakageMon (subscribe site cb s) = Some m'
  /\ warnings (log (subscribe site cb s))
     = warnings (log s) ++ match w with Some w => [w] | None => [] end
  /\ LinkedList_size (_listeners (subscribe site cb s)) = S (LinkedList_size (_listeners s))
  /\ _globalLeakWarningThreshold (subscribe site cb s) = _globalLeakWarningThreshold s.
Proof.
  intros Hm. unfold subscribe.
  destruct (_listeners s) as [ls|] eqn:Hls; cbn zeta; unfold call_hook;
    repeat (simpl; rewrite ?Hm, ?Hls;
            match goal with |- context [if ?b then _ else _] => destruct b end);
    simpl; rewrite ?Hm, ?Hls; simpl;
    (destruct (LeakageMonitor_check _ _ _ m) as [[m' [w|]] rm]);
    repeat (simpl; rewrite ?Hm, ?Hls;
            match goal with |- context [if ?b then _ else _] => destruct b end);
    simpl; rewrite ?Hls; simpl;
    rewrite ?warnings_app, ?length_app; simpl; rewrite ?app_nil_r;
    repeat split; try done; try lia.
Qed.

Lemma subscribe_without_monitor {T} site (cb : T -> list (action T)) (s : state T) :
  _leakageMon s = None ->
  warnings (log (subscribe site cb s)) = warnings (log s).
Proof.
  intros Hm.
  destruct (subscribe_spec site cb s) as (entries & ? & -> & _ & _ & Hw & _).
  by rewrite warnings_app, (Hw Hm), app_nil_r.
Qed.

(** C2 (amended): with an effective leak-warning threshold of 2, the 1st
    subscription prints no leak warning; the 2nd, which brings the listener
    count to the threshold, prints exactly one, naming the most frequent
    capture site, and resets the countdown to [threshold * 0.5 = 1]; that
    countdown is used up by the next subscription, so the 3rd prints
    exactly one more, again naming the most frequent site.  In general no
    call of [check] warns while the countdown exceeds the number of calls
    made since it was reset, and none ever warns when the effective
    threshold is not positive. *)
Theorem C2_leak_warnings_at_threshold_two {T}
    (global : Q) (options : EmitterOptions)
    (site1 site2 site3 : string) (cb1 cb2 cb3 : T -> list (action T))
    (g : Q) (calls : list (string * nat)) (m : LeakageMonitor)
    (s0 : state T) (site0 : string) (cb0 : T -> list (action T)) :
  (0 < global)%Q ->
  default global (leakWarningThreshold options) = 2%Q ->
  let s1 := subscribe site1 cb1 (new_Emitter global options) in
  let s2 := subscribe site2 cb2 s1 in
  let s3 := subscribe site3 cb3 s2 in
  warnings (log s1) = []
  /\ (exists w2 m2,
        warnings (log s2) = [w2] /\ warn_listenerCount w2 = 2%nat
        /\ _leakageMon s2 = Some m2 /\ names_most_frequent w2 m2
        /\ _warnCountdown m2 = (2 * (1 # 2))%Q)
  /\ (exists w2 w3 m3,
        warnings (log s3) = [w2; w3] /\ warn_listenerCount w3 = 3%nat
        /\ _leakageMon s3 = Some m3 /\ names_most_frequent w3 m3)
  /\ ((Qnat (length calls) < _warnCountdown m)%Q -> snd (checks g calls m) = [])
  /\ ((default g (customThreshold m) <= 0)%Q -> snd (checks g calls m) = [])
  /\ (match _leakageMon s0 with
      | Some m0 => (default (_globalLeakWarningThreshold s0) (customThreshold m0) <= 0)%Q
      | None => True
      end ->
      warnings (log (subscribe site0 cb0 s0)) = warnings (log s0)).
Proof.
  intros Hpos Htwo s1 s2 s3.
  assert (_leakageMon (new_Emitter (T:=T) global options)
          = Some (new_LeakageMonitor (leakWarningThreshold options))) as Hm0.
  { simpl. unfold Qlt_bool. destruct (Qle_bool global 0) eqn:Hle; [|done].
    apply Qle_bool_iff in Hle. lra. }
  (* first subscription: one listener is below the threshold *)
  pose proof (subscribe_with_monitor site1 cb1 _ _ Hm0) as H1.
  assert (LeakageMonitor_check global site1 1 (new_LeakageMonitor (leakWarningThreshold options))
          = (new_LeakageMonitor (leakWarningThreshold options), None, None)) as Hc1.
  { unfold LeakageMonitor_check. cbn [customThreshold new_LeakageMonitor].
    by rewrite Htwo. }
  cbn [new_Emitter construct _globalLeakWarningThreshold _listeners LinkedList_size Nat.add] in H1.
  rewrite Hc1 in H1. fold s1 in H1. destruct H1 as (Hm1 & Hw1 & Hn1 & Hg1).
  (* second subscription: the count reaches the threshold *)
  pose proof (subscribe_with_monitor site2 cb2 _ _ Hm1) as H2.
  rewrite Hg1, Hn1 in H2.
  cbn [new_Emitter construct _globalLeakWarningThreshold _listeners LinkedList_size Nat.add] in H2.
  unfold LeakageMonitor_check in H2.
  cbn [customThreshold new_LeakageMonitor _stacks _warnCountdown] in H2.
  rewrite Htwo in H2.
  change (Qle_bool 2 0 || Qlt_bool (Qnat 2) 2) with false in H2.
  change (Qle_bool (0 - 1) 0) with true in H2.
  cbn [default tally Map_get Map_set Z.add topOf falsy orb] in H2.
  fold s2 in H2. destruct H2 as (Hm2 & Hw2 & Hn2 & Hg2).
  (* third subscription: the countdown of 1 is used up *)
  pose proof (subscribe_with_monitor site3 cb3 _ _ Hm2) as H3.
  rewrite ?Hg2, ?Hg1, ?Hn2, ?Hn1 in H3.
  cbn [new_Emitter construct _globalLeakWarningThreshold _listeners LinkedList_size Nat.add] in H3.
  unfold LeakageMonitor_check in H3.
  cbn [customThreshold new_LeakageMonitor _stacks _warnCountdown] in H3.
  rewrite Htwo in H3.
  change (Qle_bool 2 0 || Qlt_bool (Qnat 3) 2) with false in H3.
  change (Qle_bool (2 * (1 # 2) - 1) 0) with true in H3.
  destruct (topOf _ None 0) as [topStack topCount] eqn:Htop in H3.
  fold s3 in H3. destruct H3 as (Hm3 & Hw3 & _).
  split; [by rewrite Hw1|].
  split; [|split; [|split; [|split]]].
  - eexists _, _. rewrite Hw2, Hw1. split; [reflexivity|].
    split; [reflexivity|]. split; [exact Hm2|]. split; [|reflexivity].
    exists site2. simpl. unfold tally. simpl.
    rewrite decide_True by done. split; [done|split; [done|]].
    intros site'. case_decide; simpl; lia.
  - eexists _, _, _. rewrite Hw3, Hw2, Hw1. split; [reflexivity|].
    split; [reflexivity|]. split; [exact Hm3|].
    unfold names_most_frequent. cbn [warn_topStack warn_topCount _stacks default].
    revert Htop. unfold tally. simpl. case_decide as Heq; simpl.
    + intros [= <- <-].
      exists site3. rewrite decide_True by done. split; [done|split; [done|]].
      intros site'. case_decide; simpl; lia.
    + case_decide as Hempty; simpl; intros [= <- <-].
      * exists site3. rewrite decide_False by done. rewrite decide_True by done.
        split; [done|split; [done|]].
        intros site'. repeat case_decide; simpl; lia.
      * exists site2. rewrite decide_True by done.
        split; [done|split; [done|]].
        intros site'. repeat case_decide; simpl; lia.
  - apply checks_rate_limited.
  - intros Hle. by rewrite checks_non_positive.
  - destruct (_leakageMon s0) as [m0|] eqn:Hmon0.
    + intros Hle. pose proof (subscribe_with_monitor site0 cb0 s0 m0 Hmon0) as H0.
      rewrite (check_non_positive _ _ _ _ Hle) in H0.
      destruct H0 as (_ & -> & _). by rewrite app_nil_r.
    + intros _. by apply subscribe_without_monitor.
Qed.

Lemma C2_witness :
  let s1 := subscribe "a" quiet (new_Emitter 2 no_options) in
  let s2 := subscribe "b" quiet s1 in
  warnings (log s1) = []
  /\ (exists w2 m2,
        warnings (log s2) = [w2] /\ warn_listenerCount w2 = 2%nat
        /\ _leakageMon s2 = Some m2 /\ names_most_frequent w2 m2
        /\ _warnCountdown m2 = (2 * (1 # 2))%Q).
Proof.
  pose proof (C2_leak_warnings_at_threshold_two (T:=Z) 2 no_options "a" "b" "c"
                quiet quiet quiet 2 [] (new_LeakageMonitor None)
                (new_Emitter 2 no_options) "a" quiet) as H.
  cbv zeta in H.
  destruct H as (H1 & H2 & _).
  - unfold Qlt. simpl. lia.
  - reflexivity.
  - split; [exact H1 | exact H2].
Defined.

(** C2, as stated, fails: with threshold 2 the 2nd subscription already
    prints a leak warning. *)
Lemma C2_counterexample :
  warnings (log (final (run (loops 0) [ASubscribe "a" quiet; ASubscribe "b" quiet]
                          (new_Emitter (T:=Z) 2 no_options))))
  = [{| warn_listenerCount := 2; warn_topCount := 1; warn_topStack := Some "b" |}].
Proof. reflexivity. Qed.

(** *** Pausing and resuming *)

Lemma emissions_trace {T} (q : list (Listener T * T)) :
  emissions (trace q) = map (fun p => (lid (fst p), snd p)) q.
Proof.
  induction q as [|[l e] q IH]; [done|]. unfold trace in *. simpl.
  destruct (thrown _); simpl; by rewrite IH.
Qed.

Lemma dispatched_spec {T} (ls : list (Listener T)) (event : T) (s : state T) :
  let s' := dispatched ls event s in
  _listeners s' = _listeners s
  /\ _deliveryQueue s' = Some []
  /\ cfg s' = cfg s
  /\ _eventQueue s' = _eventQueue s
  /\ _handle s' = _handle s
  /\ _isPaused s' = (_isPaused s + pausers (map (fun l => (l, event)) ls))%nat
  /\ emissions (log s') = emissions (log s) ++ map (fun l => (lid l, event)) ls.
Proof.
  unfold dispatched, delivered, attended, perfMon_stop, perfMon_start. simpl.
  destruct (_perfMon s) as [p|] eqn:Hp; simpl; rewrite ?Hp; simpl;
    rewrite ?emissions_app, ?emissions_trace, ?map_map; simpl;
    rewrite ?app_nil_r; repeat split; done.
Qed.

(** One round of the flush loop of [resume], for tame listeners. *)
Lemma flush_step {T} fuel (ls : list (Listener T)) (event : T) q (s : state T) :
  _isPaused s = 0%nat ->
  _eventQueue s = event :: q ->
  _listeners s = Some ls ->
  default [] (_deliveryQueue s) = [] ->
  Forall (fun l => tame (class (cfg s)) (callback l event)) ls ->
  (length ls < fuel)%nat ->
  loops (S fuel) Flush s = loops fuel Flush (dispatched ls event (set_eventQueue q s)).
Proof.
  intros Hp Hq Hls Hdq Htame Hfuel. cbn [loops iterate]. rewrite Hp, Hq.
  by rewrite (Emitter_fire_tame fuel ls event (set_eventQueue q s)).
Qed.

(** The flush loop hands out queued payloads in order for as long as no
    listener pauses the emitter. *)
Lemma flush_passive {T} (ls : list (Listener T)) (events rest : list T) :
  forall fuel (s : state T),
    _isPaused s = 0%nat ->
    _eventQueue s = events ++ rest ->
    _listeners s = Some ls ->
    default [] (_deliveryQueue s) = [] ->
    Forall (fun event => Forall (fun l => passiveb (callback l event) = true) ls) events ->
    (length ls < fuel)%nat ->
    exists s',
      loops (length events + fuel) Flush s = loops fuel Flush s'
      /\ _isPaused s' = 0%nat
      /\ _eventQueue s' = rest
      /\ _listeners s' = Some ls
      /\ default [] (_deliveryQueue s') = []
      /\ cfg s' = cfg s
      /\ emissions (log s')
         = emissions (log s) ++ flat_map (fun event => map (fun l => (lid l, event)) ls) events.
Proof.
  induction events as [|event events IH]; intros fuel s Hp Hq Hls Hdq Hpass Hfuel.
  - exists s. simpl. rewrite app_nil_r. repeat split; done.
  - inversion Hpass as [|? ? Hhd Htl]; subst.
    cbn [length Nat.add]. rewrite (flush_step _ ls event (events ++ rest)); try done.
    2:{ apply (Forall_impl _ _ _ Hhd). intros l Hl. by apply passiveb_tame. }
    2:{ lia. }
    destruct (dispatched_spec ls event (set_eventQueue (events ++ rest) s))
      as (Hls' & Hdq' & Hcfg' & Hq' & _ & Hp' & Hem').
    assert (_isPaused (dispatched ls event (set_eventQueue (events ++ rest) s)) = 0%nat)
      as Hp0.
    { rewrite Hp'. simpl. rewrite Hp.
      assert (pausers (map (fun l => (l, event)) ls) = 0%nat) as ->; [|done].
      clear -Hhd. induction Hhd as [|l ls Hl _ IHl]; [done|]. simpl.
      by rewrite (passiveb_paused _ Hl), IHl. }
    assert (default [] (_deliveryQueue
              (dispatched ls event (set_eventQueue (events ++ rest) s))) = []) as Hdq0.
    { by rewrite Hdq'. }
    destruct (IH fuel (dispatched ls event (set_eventQueue (events ++ rest) s))
                Hp0 Hq' ltac:(by rewrite Hls') Hdq0 Htl Hfuel)
      as (s' & Hrun & Hp'' & Hq'' & Hls'' & Hdq'' & Hcfg'' & Hem'').
    exists s'. rewrite Hrun. repeat split; try done.
    + by rewrite Hcfg''.
    + rewrite Hem'', Hem'. simpl. by rewrite <- app_assoc.
Qed.

(** C8: on a [PauseableEmitter] without merge function, the [resume()]
    that brings the pause counter to zero hands the queued payloads to the
    listeners one at a time, in the order in which they were fired.  The
    pause counter is read before each payload: when a listener has called
    [pause()] during the dispatch of payload [p], flushing stops right
    after [p] and the payloads behind it stay queued. *)
Theorem C8_resume_flushes_in_order {T} (s : state T) (ls : list (Listener T))
    (pre : list T) (p : T) (post : list T) (fuel : nat) :
  class (cfg s) = PauseableEmitterClass ->
  _mergeFn (cfg s) = None ->
  _isPaused s = 1%nat ->
  _listeners s = Some ls ->
  default [] (_deliveryQueue s) = [] ->
  Forall (fun event => Forall (fun l => passiveb (callback l event) = true) ls) pre ->
  (length pre + length ls + 2 <= fuel)%nat ->
  (_eventQueue s = pre ->
   exists s',
     resume (loops fuel) s = Returned s'
     /\ emissions (log s')
        = emissions (log s) ++ flat_map (fun event => map (fun l => (lid l, event)) ls) pre
     /\ _eventQueue s' = []
     /\ _isPaused s' = 0%nat)
  /\ (_eventQueue s = pre ++ p :: post ->
      Forall (fun l => tameb (class (cfg s)) (callback l p) = true) ls ->
      (0 < pausers (map (fun l => (l, p)) ls))%nat ->
      exists s',
        resume (loops fuel) s = Returned s'
        /\ emissions (log s')
           = emissions (log s)
             ++ flat_map (fun event => map (fun l => (lid l, event)) ls) (pre ++ [p])
        /\ _eventQueue s' = post
        /\ _isPaused s' = pausers (map (fun l => (l, p)) ls)).
Proof.
  intros Hclass Hmerge Hp Hls Hdq Hpass Hfuel.
  assert (resume (loops fuel) s = loops fuel Flush (set_isPaused 0 s)) as Hresume.
  { unfold resume. rewrite Hp. simpl. by rewrite Hmerge. }
  rewrite Hresume.
  replace fuel with (length pre + (fuel - length pre))%nat by lia.
  split.
  - intros Hq.
    destruct (flush_passive ls pre [] (fuel - length pre) (set_isPaused 0 s))
      as (s' & -> & Hp' & Hq' & _ & _ & _ & Hem'); try done.
    { by rewrite app_nil_r. }
    { lia. }
    exists s'. split; [|done].
    destruct (fuel - length pre)%nat as [|f] eqn:Hf; [lia|].
    cbn [loops iterate]. by rewrite Hp', Hq'.
  - intros Hq Htame Hpausers.
    destruct (flush_passive ls pre (p :: post) (fuel - length pre) (set_isPaused 0 s))
      as (s' & -> & Hp' & Hq' & Hls' & Hdq' & Hcfg' & Hem'); try done.
    { lia. }
    destruct (fuel - length pre)%nat as [|f] eqn:Hf; [lia|].
    rewrite (flush_step f ls p post s'); try done.
    2:{ rewrite Hcfg'. simpl.
        apply (Forall_impl _ _ _ Htame). intros l Hl. by apply tameb_tame. }
    2:{ lia. }
    destruct (dispatched_spec ls p (set_eventQueue post s'))
      as (_ & _ & _ & Hq'' & _ & Hp'' & Hem'').
    exists (dispatched ls p (set_eventQueue post s')).
    repeat split.
    + destruct f as [|f]; [lia|]. cbn [loops iterate]. rewrite Hp''. simpl.
      rewrite Hp'. simpl.
      destruct (pausers (map (fun l => (l, p)) ls)); [lia|done].
    + rewrite Hem''. simpl. rewrite Hem'. simpl.
      rewrite flat_map_app. simpl. by rewrite app_nil_r, <- app_assoc.
    + by rewrite Hq''.
    + rewrite Hp''. simpl. by rewrite Hp'.
Qed.

Lemma C8_witness :
  exists s',
    resume (loops 5) paused_with_two = Returned s'
    /\ emissions (log s') = [(0%nat, 1); (0%nat, 2)]
    /\ _eventQueue s' = []
    /\ _isPaused s' = 0%nat.
Proof.
  destruct (C8_resume_flushes_in_order paused_with_two [first_listener] [1; 2] 0 [] 5)
    as [H _].
  - reflexivity.
  - reflexivity.
  - reflexivity.
  - reflexivity.
  - reflexivity.
  - repeat constructor.
  - simpl. lia.
  - apply H. reflexivity.
Defined.

(** The example of the specification, from the first call to the last. *)
Example pause_fire_fire_resume :
  emissions (log (final (run (loops 5) [ASubscribe "a" quiet; APause; AFire 1; AFire 2; AResume]
                           (new_PauseableEmitter (-1) no_options None))))
  = [(0%nat, 1); (0%nat, 2)].
Proof. reflexivity. Qed.

(** A listener that pauses the emitter when it sees 1 stops the flush; the
    next [resume()] delivers what was left. *)
Example pause_during_flush :
  let script := [ASubscribe "a" (fun e => if e =? 1 then [APause] else []);
                 APause; AFire 1; AFire 2; AFire 3; AResume] in
  let s := final (run (loops 5) script (new_PauseableEmitter (-1) no_options None)) in
  emissions (log s) = [(0%nat, 1)]
  /\ _eventQueue s = [2; 3]
  /\ emissions (log (final (resume (loops 5) s))) = [(0%nat, 1); (0%nat, 2); (0%nat, 3)].
Proof. repeat split; reflexivity. Qed.

(** *** Debouncing *)

Lemma setTimeout_after_in_range delay :
  1 <= delay <= TIMEOUT_MAX -> setTimeout_after delay = delay.
Proof.
  intros [Hlo Hhi]. unfold setTimeout_after.
  destruct (1 <=? delay) eqn:H1; [|lia].
  destruct (delay <=? TIMEOUT_MAX) eqn:H2; [done|lia].
Qed.

(** No timeout runs before it is due. *)
Lemma timeouts_idle {T} n fuel t (s : state T) :
  match _handle s with Some due => t < due | None => True end ->
  timeouts n fuel t s = Returned s.
Proof.
  intros Hh. destruct n; simpl; destruct (_handle s) as [due|]; try done;
    destruct (due <=? t) eqn:Hcmp; done || lia.
Qed.

Lemma advanceTo_idle {T} fuel t (s : state T) :
  match _handle s with Some due => t < due | None => True end ->
  advanceTo fuel t s = Returned (set_clock (Z.max (clock s) t) s).
Proof. intros Hh. unfold advanceTo. by rewrite timeouts_idle. Qed.

(** While the timeout is pending and not yet due, fires only queue up. *)
Lemma fireAt_pending {T} fuel (ls : list (Listener T)) (due : Z) (fires : list (Z * T)) :
  forall (s : state T),
    class (cfg s) = DebounceEmitterClass ->
    _handle s = Some due ->
    (exists n, _isPaused s = S n) ->
    _listeners s = Some ls ->
    Forall (fun f => fst f < due) fires ->
    exists s',
      fireAt fuel fires s = Returned s'
      /\ cfg s' = cfg s /\ _handle s' = Some due /\ _isPaused s' = _isPaused s
      /\ _listeners s' = Some ls /\ _deliveryQueue s' = _deliveryQueue s
      /\ log s' = log s
      /\ _eventQueue s' = _eventQueue s ++ map snd fires.
Proof.
  induction fires as [|[t event] fires IH]; intros s Hclass Hh Hp Hls Hdue.
  - exists s. simpl. rewrite app_nil_r. repeat split; done.
  - inversion Hdue as [|? ? Ht Hrest]; subst. simpl in Ht.
    destruct Hp as [n Hp].
    cbn [fireAt]. rewrite advanceTo_idle by (by rewrite Hh). cbn [bind].
    unfold fire. cbn [cfg set_clock]. rewrite Hclass.
    unfold DebounceEmitter_fire. cbn [_handle set_clock]. rewrite Hh.
    unfold PauseableEmitter_fire. cbn [_listeners _isPaused set_clock]. rewrite Hls, Hp.
    cbn [bind].
    destruct (IH (set_eventQueue (_eventQueue (set_clock (Z.max (clock s) t) s) ++ [event])
                    (set_clock (Z.max (clock s) t) s)))
      as (s' & -> & Hcfg & Hh' & Hp' & Hls' & Hdq' & Hlog' & Hq'); try done.
    { exists n. done. }
    exists s'. split; [done|].
    rewrite Hcfg, Hh', Hp', Hls', Hdq', Hlog', Hq'. simpl.
    rewrite <- app_assoc. repeat split; done.
Qed.

(** The first fire of a burst pauses the emitter and starts the timeout. *)
Lemma debounce_first_fire {T} fuel (ls : list (Listener T)) (first : T) (s : state T) :
  class (cfg s) = DebounceEmitterClass ->
  _handle s = None ->
  _isPaused s = 0%nat ->
  _listeners s = Some ls ->
  fire (loops fuel) first s
  = Returned (set_eventQueue (_eventQueue s ++ [first])
                (set_handle (Some (clock s + setTimeout_after (_delay (cfg s)))) (pause s))).
Proof.
  intros Hclass Hh Hp Hls.
  unfold fire. rewrite Hclass. unfold DebounceEmitter_fire. rewrite Hh.
  unfold PauseableEmitter_fire. cbn [_listeners set_handle pause set_isPaused _isPaused].
  by rewrite Hls.
Qed.

(** When the timeout is due, the queue is merged and dispatched once. *)
Lemma debounce_timeout_state {T} fuel (ls : list (Listener T)) (merge : list T -> T)
    (due t : Z) (s : state T) :
  _mergeFn (cfg s) = Some merge ->
  _handle s = Some due ->
  _isPaused s = 1%nat ->
  _listeners s = Some ls ->
  default [] (_deliveryQueue s) = [] ->
  Forall (fun l => passiveb (callback l (merge (_eventQueue s))) = true) ls ->
  (length ls < fuel)%nat ->
  due <= t ->
  advanceTo fuel t s
  = Returned
      (let s' := dispatched ls (merge (_eventQueue s))
                   (set_eventQueue []
                      (set_isPaused 0 (set_handle None (set_clock (Z.max (clock s) due) s)))) in
       set_clock (Z.max (clock s') t) s').
Proof.
  intros Hmerge Hh Hp Hls Hdq Hpass Hfuel Ht.
  unfold advanceTo. destruct fuel as [|f] eqn:Hf; [lia|]. rewrite <- Hf.
  rewrite Hf at 1. cbn [timeouts]. rewrite Hh.
  destruct (due <=? t) eqn:Hcmp; [|lia].
  unfold onTimeout, resume. cbn [_isPaused set_handle set_clock].
  rewrite Hp. cbn [cfg set_isPaused set_handle set_clock].
  rewrite Hmerge. cbn [_eventQueue set_isPaused set_handle set_clock].
  match goal with |- context [Emitter_fire _ ?e ?st] =>
    rewrite (Emitter_fire_tame fuel ls e st) end.
  - cbn [bind]. rewrite timeouts_idle; [reflexivity|].
    match goal with |- context [dispatched ls ?e ?st] =>
      destruct (dispatched_spec ls e st) as (_ & _ & _ & _ & -> & _) end.
    done.
  - exact Hls.
  - exact Hdq.
  - apply (Forall_impl _ _ _ Hpass). intros l Hl. by apply passiveb_tame.
  - lia.
Qed.

Lemma passive_pausers {T} (ls : list (Listener T)) (event : T) :
  Forall (fun l => passiveb (callback l event) = true) ls ->
  pausers (map (fun l => (l, event)) ls) = 0%nat.
Proof.
  induction 1 as [|l ls Hl _ IHl]; [reflexivity|].
  cbn [map pausers foldr fst snd] in *.
  rewrite (passiveb_paused _ Hl). exact IHl.
Qed.

Lemma debounce_timeout {T} fuel (ls : list (Listener T)) (merge : list T -> T)
    (due t : Z) (s : state T) :
  _mergeFn (cfg s) = Some merge ->
  _handle s = Some due ->
  _isPaused s = 1%nat ->
  _listeners s = Some ls ->
  default [] (_deliveryQueue s) = [] ->
  Forall (fun l => passiveb (callback l (merge (_eventQueue s))) = true) ls ->
  (length ls < fuel)%nat ->
  due <= t ->
  exists s2,
    advanceTo fuel t s = Returned s2
    /\ emissions (log s2)
       = emissions (log s) ++ map (fun l => (lid l, merge (_eventQueue s))) ls
    /\ _handle s2 = None
    /\ _eventQueue s2 = []
    /\ _isPaused s2 = 0%nat.
Proof.
  intros Hmerge Hh Hp Hls Hdq Hpass Hfuel Ht.
  rewrite (debounce_timeout_state fuel ls merge due t s); try assumption.
  eexists. split; [reflexivity|]. cbv zeta.
  pose proof (passive_pausers ls (merge (_eventQueue s)) Hpass) as Hzero.
  unfold dispatched, delivered, attended, perfMon_stop, perfMon_start.
  cbn [_perfMon set_deliveryQueue set_eventQueue set_isPaused set_handle set_clock].
  destruct (_perfMon s) as [p|] eqn:Hperf;
    cbn [_perfMon set_deliveryQueue set_eventQueue set_isPaused set_handle set_clock
         set_log set_perfMon emit EventProfiling_start _stopWatch log _handle
         _eventQueue _isPaused _listenerCount _invocationCount];
    rewrite ?Hperf;
    cbn [_perfMon set_deliveryQueue set_eventQueue set_isPaused set_handle set_clock
         set_log set_perfMon emit EventProfiling_start _stopWatch log _handle
         _eventQueue _isPaused _listenerCount _invocationCount];
    rewrite ?emissions_app, ?emissions_trace, ?map_map; cbn [emissions fst snd lid];
    rewrite ?app_nil_r, Hzero; repeat split; reflexivity.
Qed.

(** C1 (amended): take a [DebounceEmitter] with merge function and a
    delay [d] between 1 and [2^31 - 1] milliseconds, whose listener set
    exists, which is not paused, has no timeout pending, no payload queued
    and no dispatch in progress, and whose listeners return or throw when
    they receive the merged payload.  A first [fire] at time [t0] starts
    the timeout; every further [fire] before [t0 + d] only joins the
    queue.  Nothing is delivered before [t0 + d], and at [t0 + d] every
    listener receives exactly one emission, the merge of the whole burst:
    the delay runs from the first fire of the burst, not from the last. *)
Theorem C1_debounce_window {T} (s : state T) (ls : list (Listener T))
    (merge : list T -> T) (first : T) (fires : list (Z * T)) (fuel : nat) :
  class (cfg s) = DebounceEmitterClass ->
  _mergeFn (cfg s) = Some merge ->
  1 <= _delay (cfg s) <= TIMEOUT_MAX ->
  _handle s = None ->
  _isPaused s = 0%nat ->
  _eventQueue s = [] ->
  _listeners s = Some ls ->
  default [] (_deliveryQueue s) = [] ->
  Forall (fun f => fst f < clock s + _delay (cfg s)) fires ->
  Forall (fun l => passiveb (callback l (merge (first :: map snd fires))) = true) ls ->
  (length ls < fuel)%nat ->
  exists s1,
    bind (fire (loops fuel) first s) (fireAt fuel fires) = Returned s1
    /\ emissions (log s1) = emissions (log s)
    /\ (forall t, t < clock s + _delay (cfg s) ->
          exists s2, advanceTo fuel t s1 = Returned s2
                     /\ emissions (log s2) = emissions (log s))
    /\ (forall t, clock s + _delay (cfg s) <= t ->
          exists s2, advanceTo fuel t s1 = Returned s2
                     /\ emissions (log s2)
                        = emissions (log s)
                          ++ map (fun l => (lid l, merge (first :: map snd fires))) ls
                     /\ _handle s2 = None
                     /\ _eventQueue s2 = []
                     /\ _isPaused s2 = 0%nat).
Proof.
  intros Hclass Hmerge Hrange Hh Hp Hq Hls Hdq Hfires Hpass Hfuel.
  rewrite (debounce_first_fire fuel ls first s Hclass Hh Hp Hls). cbn [bind].
  rewrite (setTimeout_after_in_range _ Hrange).
  destruct (fireAt_pending fuel ls (clock s + _delay (cfg s)) fires
              (set_eventQueue (_eventQueue s ++ [first])
                 (set_handle (Some (clock s + _delay (cfg s))) (pause s))))
    as (s1 & Hrun & Hcfg & Hh1 & Hp1 & Hls1 & Hdq1 & Hlog1 & Hq1).
  { exact Hclass. }
  { reflexivity. }
  { exists 0%nat. cbn [_isPaused set_eventQueue set_handle pause set_isPaused].
    by rewrite Hp. }
  { exact Hls. }
  { exact Hfires. }
  cbn [cfg _isPaused _deliveryQueue log _eventQueue
       set_eventQueue set_handle pause set_isPaused] in Hcfg, Hp1, Hdq1, Hlog1, Hq1.
  rewrite Hq in Hq1. cbn [app] in Hq1. rewrite Hp in Hp1.
  exists s1. split; [exact Hrun|].
  split; [by rewrite Hlog1|]. split.
  - intros t Ht. rewrite advanceTo_idle by (by rewrite Hh1).
    eexists. split; [reflexivity|]. cbn [log set_clock]. by rewrite Hlog1.
  - intros t Ht.
    destruct (debounce_timeout fuel ls merge (clock s + _delay (cfg s)) t s1)
      as (s2 & Hadv & Hem & Hh2 & Hq2 & Hp2); try assumption.
    + by rewrite Hcfg.
    + by rewrite Hdq1.
    + by rewrite Hq1.
    + exists s2. rewrite Hq1, Hlog1 in Hem. by repeat split.
Qed.

Lemma C1_witness :
  exists s1,
    bind (fire (loops 2) 100 debouncing) (fireAt 2 [(10, 101); (20, 102)]) = Returned s1
    /\ emissions (log s1) = []
    /\ (forall t, t < 50 ->
          exists s2, advanceTo 2 t s1 = Returned s2 /\ emissions (log s2) = [])
    /\ (forall t, 50 <= t ->
          exists s2, advanceTo 2 t s1 = Returned s2
                     /\ emissions (log s2) = [] ++ [(0%nat, 3)]
                     /\ _handle s2 = None
                     /\ _eventQueue s2 = []
                     /\ _isPaused s2 = 0%nat).
Proof.
  apply (C1_debounce_window debouncing [first_listener] count 100
           [(10, 101); (20, 102)] 2).
  - reflexivity.
  - reflexivity.
  - vm_compute. split; discriminate.
  - reflexivity.
  - reflexivity.
  - reflexivity.
  - reflexivity.
  - reflexivity.
  - repeat constructor.
  - repeat constructor.
  - simpl. lia.
Defined.

(** C1, as stated, fails.  With delay 50 and fires at 0, 40 and 80, whose
    gaps are shorter than the delay, the listener receives two emissions,
    the first one at time 50; and for fires at 0, 10 and 20 the single
    emission is there at time 50, which is 30 after the last fire. *)
Lemma C1_counterexample :
  emissions (log (final (bind (fireAt 2 [(0, 100); (40, 101); (80, 102)] debouncing)
                              (advanceTo 2 130))))
  = [(0%nat, 2); (0%nat, 1)]
  /\ emissions (log (final (bind (fireAt 2 [(0, 100); (10, 101); (20, 102)] debouncing)
                                 (advanceTo 2 50))))
     = [(0%nat, 3)]
  /\ 50 < 20 + 50.
Proof. repeat split; reflexivity. Qed.

(** On an emitter that its owner has paused, the timeout only takes the
    pause counter back to where the owner left it: nothing is delivered
    when the delay has passed, and the burst waits for the owner's
    [resume()]. *)
Example debounce_while_owner_paused :
  let s := final (bind (fireAt 2 [(0, 100); (10, 101)] owner_paused) (advanceTo 2 60)) in
  emissions (log s) = [] /\ _isPaused s = 1%nat /\ _eventQueue s = [100; 101]
  /\ _handle s = None
  /\ emissions (log (final (resume (loops 3) s))) = [(0%nat, 2)].
Proof. vm_compute. repeat split; reflexivity. Qed.

(** A [fire] made by a listener from the timeout callback starts the next
    timeout, which runs in its turn once it is due. *)
Example debounce_rearmed_from_callback :
  let s70 := final (bind (fireAt 5 [(0, 100)] rearming) (advanceTo 5 70)) in
  let s120 := final (bind (fireAt 5 [(0, 100)] rearming) (advanceTo 5 120)) in
  emissions (log s70) = [(0%nat, 1)] /\ _handle s70 = Some 100
  /\ emissions (log s120) = [(0%nat, 1); (0%nat, 1)] /\ _handle s120 = Some 150.
Proof. vm_compute. repeat split; reflexivity. Qed.

(** A delay beyond [TIMEOUT_MAX] is taken as 1 by [setTimeout]. *)
Example debounce_delay_out_of_range :
  let s0 := final (run (loops 0) [ASubscribe "a" quiet]
                     (new_DebounceEmitter (-1) 0 no_options count (Some 4294967296))) in
  emissions (log (final (bind (fireAt 2 [(0, 100)] s0) (advanceTo 2 1)))) = [(0%nat, 1)].
Proof. vm_compute. reflexivity. Qed.

(** ** Facts about the asynchronous loop *)

Section AsyncFacts.
Import Async.
Local Open Scope nat_scope.
Context {D : Type}.
Implicit Types (s : Async.state D) (q : list (Async.Listener D * D)).

Lemma waitUntil_frame k p s :
  forall s' e, waitUntil k p s = (s', e) ->
    log s' = log s /\ calls s' = calls s /\ settled s' = settled s
    /\ cancelled s' = cancelled s /\ _listeners s' = _listeners s
    /\ _asyncDeliveryQueue s' = _asyncDeliveryQueue s
    /\ length (turns s') = length (turns s)
    /\ (forall j, j <> k -> turns s' !! j = turns s !! j)
    /\ (forall t, turns s !! k = Some t ->
          exists t', turns s' !! k = Some t'
                     /\ isFrozen t' = isFrozen t
                     /\ (isFrozen t = true -> t' = t /\ e = Some late_join)
                     /\ (forall x, x ∈ thenables t -> x ∈ thenables t')).
Proof.
  intros s' e. unfold waitUntil.
  destruct (turns s !! k) as [t|] eqn:Hk.
  - destruct (isFrozen t) eqn:Hf.
    + intros [= <- <-]. repeat split; try done.
      intros t0 [= <-]. exists t. by repeat split.
    + intros [= <- <-]. simpl. rewrite length_insert. repeat split; try done.
      * intros j Hj. by rewrite list_lookup_insert_ne.
      * intros t0 [= <-]. eexists. split.
        { apply list_lookup_insert_eq. by eapply lookup_lt_Some. }
        simpl. repeat split; try done; try congruence.
        intros x Hx. apply elem_of_app. by left.
  - intros [= <- <-]. repeat split; try done.
Qed.

Lemma run_frame k script :
  forall s s' e, run k script s = (s', e) ->
    log s' = log s /\ calls s' = calls s /\ settled s' = settled s
    /\ cancelled s' = cancelled s /\ _listeners s' = _listeners s
    /\ _asyncDeliveryQueue s' = _asyncDeliveryQueue s
    /\ length (turns s') = length (turns s)
    /\ (forall j, j <> k -> turns s' !! j = turns s !! j).
Proof.
  induction script as [|[p|e0] script IH]; intros s s' e; simpl.
  - intros [= <- <-]. by repeat split.
  - destruct (waitUntil k p s) as [s1 [e1|]] eqn:Hw.
    + intros [= <- <-].
      destruct (waitUntil_frame k p s _ _ Hw) as (?&?&?&?&?&?&?&?&_). by repeat split.
    + intros Hrun.
      destruct (waitUntil_frame k p s _ _ Hw) as (H1&H2&H3&H4&H5&H6&H7&H8&_).
      destruct (IH _ _ _ Hrun) as (G1&G2&G3&G4&G5&G6&G7&G8).
      repeat split; try congruence.
      intros j Hj. rewrite G8 by done. by apply H8.
  - intros [= <- <-]. by repeat split.
Qed.

(** A turn whose listener only joins promises collects all of them. *)
Lemma run_collects k ps :
  forall s t,
    turns s !! k = Some t -> isFrozen t = false ->
    run k (map WaitUntil ps) s
    = (set_turns (<[k := {| thenables :=
                              thenables t
                              ++ map (fun p => match join t with
                                               | Some f => f p (listener t)
                                               | None => p
                                               end) ps;
                            isFrozen := false; join := join t;
                            listener := listener t |}]> (turns s)) s,
       None).
Proof.
  induction ps as [|p ps IH]; intros s t Hk Hf; simpl.
  - rewrite app_nil_r. f_equal. destruct s, t; simpl in *; subst.
    by rewrite list_insert_id.
  - unfold waitUntil. rewrite Hk, Hf.
    rewrite (IH _ {| thenables :=
                       thenables t ++ [match join t with
                                       | Some f => f p (listener t)
                                       | None => p
                                       end];
                     isFrozen := false; join := join t; listener := listener t |}).
    + f_equal. unfold set_turns. simpl. rewrite list_insert_insert_eq.
      by rewrite <- app_assoc.
    + apply list_lookup_insert_eq. by eapply lookup_lt_Some.
    + done.
Qed.

Lemma invokedBy_app c (l l' : list (Async.logEntry D)) :
  invokedBy c (l ++ l') = invokedBy c l ++ invokedBy c l'.
Proof.
  induction l as [|[c' id data| |] l IH]; simpl; try done.
  case_decide; simpl; by rewrite IH.
Qed.

Lemma set_status_frame c st s :
  log (set_status c st s) = log s /\ turns (set_status c st s) = turns s
  /\ settled (set_status c st s) = settled s
  /\ cancelled (set_status c st s) = cancelled s
  /\ length (calls (set_status c st s)) = length (calls s)
  /\ (forall c', c' <> c -> calls (set_status c st s) !! c' = calls s !! c').
Proof.
  unfold set_status. simpl. rewrite length_alter. repeat split; try done.
  intros c' Hc'. by rewrite list_lookup_alter_ne.
Qed.

(** What the loop of call [c] leaves alone: the turns that existed, the
    promises, the other calls, and what the other calls have invoked. *)
Lemma loop_frame c tok pj q :
  forall s,
    let s' := loop c tok pj q s in
    settled s' = settled s
    /\ cancelled s' = cancelled s
    /\ (length (turns s) <= length (turns s'))
    /\ (forall j, j < length (turns s) -> turns s' !! j = turns s !! j)
    /\ length (calls s') = length (calls s)
    /\ (forall c', c' <> c -> calls s' !! c' = calls s !! c')
    /\ (forall c', c' <> c -> invokedBy c' (log s') = invokedBy c' (log s))
    /\ (exists entries, log s' = log s ++ entries).
Proof.
  induction q as [|[l data] q IH]; intros s; cbn [loop].
  - destruct (set_status_frame c Finished s) as (-> & -> & -> & -> & -> & Hc).
    repeat split; try done. exists []. by rewrite app_nil_r.
  - case_decide as Hcancel.
    + destruct (set_status_frame c Finished s) as (-> & -> & -> & -> & -> & Hc).
      repeat split; try done. exists []. by rewrite app_nil_r.
    + cbv zeta. cbn [turns set_asyncDeliveryQueue].
      destruct (run _ _ _) as [s1 [e|]] eqn:Hrun;
        destruct (run_frame _ _ _ _ _ Hrun) as (H1&H2&H3&H4&H5&H6&H7&H8);
        simpl in H1, H2, H3, H4, H5, H6, H7, H8; rewrite length_app in H7; simpl in H7.
      * specialize (IH (onUnexpectedError e s1)). cbv zeta in IH.
        destruct IH as (G1&G2&G3&G4&G5&G6&G7&(entries & G8)).
        cbn [onUnexpectedError emit settled cancelled turns calls log]
          in G1, G2, G3, G4, G5, G6, G7, G8.
        split; [by rewrite G1, H3|]. split; [by rewrite G2, H4|].
        split; [lia|].
        split.
        { intros j Hj. rewrite G4 by lia. rewrite H8 by lia.
          by rewrite lookup_app_l. }
        split; [by rewrite G5, H2|].
        split.
        { intros c' Hc'. rewrite G6 by done. by rewrite H2. }
        split.
        { intros c' Hc'. rewrite G7 by done. rewrite H1.
          rewrite !invokedBy_app. simpl. rewrite decide_False by done.
          by rewrite !app_nil_r. }
        rewrite G8, H1. eexists. rewrite <- !app_assoc. reflexivity.
      * destruct (set_status_frame c (Awaiting (length (turns s)))
                    (freeze (length (turns s)) s1))
          as (F1 & F2 & F3 & F4 & F5 & F6).
        cbn [freeze set_turns log turns settled cancelled calls] in F1, F2, F3, F4, F5, F6.
        split; [by rewrite F3, H3|]. split; [by rewrite F4, H4|].
        split; [rewrite F2, length_alter; lia|].
        split.
        { intros j Hj. rewrite F2, list_lookup_alter_ne by lia. rewrite H8 by lia.
          by rewrite lookup_app_l. }
        split; [by rewrite F5, H2|].
        split.
        { intros c' Hc'. rewrite F6 by done. by rewrite H2. }
        split.
        { intros c' Hc'. rewrite F1, H1, invokedBy_app. simpl.
          rewrite decide_False by done. by rewrite app_nil_r. }
        rewrite F1, H1. by eexists.
Qed.

Lemma report_all_frame (es : list string) :
  forall s,
    let s' := foldl (fun s e => onUnexpectedError e s) s es in
    log s' = log s ++ map Reported es
    /\ turns s' = turns s /\ calls s' = calls s /\ settled s' = settled s
    /\ cancelled s' = cancelled s /\ _asyncDeliveryQueue s' = _asyncDeliveryQueue s.
Proof.
  induction es as [|e es IH]; intros s; simpl.
  - rewrite app_nil_r. by repeat split.
  - destruct (IH (onUnexpectedError e s)) as (-> & -> & -> & -> & -> & ->).
    simpl. rewrite <- app_assoc. by repeat split.
Qed.

Lemma invokedBy_reported c (es : list string) :
  invokedBy c (map (Reported (D:=D)) es) = [].
Proof. by induction es. Qed.

Lemma drive_frame c s :
  let s' := drive c s in
  settled s' = settled s
  /\ (forall j, j < length (turns s) -> turns s' !! j = turns s !! j)
  /\ length (calls s') = length (calls s)
  /\ (forall c', c' <> c -> calls s' !! c' = calls s !! c')
  /\ (forall c', c' <> c -> invokedBy c' (log s') = invokedBy c' (log s))
  /\ (exists entries, log s' = log s ++ entries).
Proof.
  unfold drive. destruct (calls s !! c) as [x|].
  - destruct (loop_frame c (token x) (promiseJoin x)
                (default [] (_asyncDeliveryQueue s)) s) as (H1&_&_&H4&H5&H6&H7&H8).
    by repeat split.
  - repeat split; try done. exists []. by rewrite app_nil_r.
Qed.

(** While a promise joined in the current turn of call [c] is pending, no
    event other than the settling of that promise unblocks [c], and [c]
    invokes no listener. *)
Lemma step_blockedOn ev s c p :
  blockedOn c p s ->
  (forall o, ev <> ESettle p o) ->
  blockedOn c p (step ev s) /\ invokedBy c (log (step ev s)) = invokedBy c (log s).
Proof.
  intros (x & k & t & Hc & Hat & Hk & Hp & Hpending) Hev.
  pose proof (lookup_lt_Some _ _ _ Hc) as Hclt.
  pose proof (lookup_lt_Some _ _ _ Hk) as Hklt.
  destruct ev as [cb|data tok pj|p' o|tok|c'|k' p']; simpl.
  - split; [|done]. by exists x, k, t.
  - unfold fireAsync. destruct (_listeners s) as [ls|].
    + cbv zeta.
      match goal with |- context [drive ?c0 ?s0] =>
        pose proof (drive_frame c0 s0) as HF; cbv zeta in HF;
        set (s' := drive c0 s0) in * end.
      destruct HF as (H1&H4&_&H6&H7&_).
      cbn [settled turns calls log set_asyncDeliveryQueue set_calls] in H1, H4, H6, H7.
      split.
      * exists x, k, t. rewrite H6 by lia. rewrite H4 by done. rewrite H1.
        rewrite lookup_app_l by done. done.
      * by rewrite H7 by lia.
    + split; [|done]. exists x, k, t.
      cbn [calls set_calls turns settled log]. rewrite lookup_app_l by done. done.
  - destruct (settled s !! p') eqn:Hp'.
    + split; [|done]. by exists x, k, t.
    + simpl. split; [|done]. exists x, k, t. simpl.
      rewrite lookup_insert_ne; [done|]. intros ->. by apply (Hev o).
  - split; [|done]. by exists x, k, t.
  - unfold wake. destruct (decide (c' = c)) as [->|Hne].
    + rewrite Hc. destruct x as [tk pjx st]. simpl in Hat. subst st.
      rewrite Hk. simpl.
      assert (forallb (isSettled s) (thenables t) = false) as ->.
      { apply not_true_is_false. intros Hall. rewrite forallb_forall in Hall.
        specialize (Hall p). unfold isSettled in Hall. rewrite Hpending in Hall.
        assert (false = true) by (apply Hall; by apply list_elem_of_In). done. }
      split; [|done]. by exists {| token := tk; promiseJoin := pjx; at_ := Awaiting k |}, k, t.
    + destruct (calls s !! c') as [[tk pjx [k'|]]|] eqn:Hc';
        try (split; [|done]; by exists x, k, t).
      destruct (forallb _ _); [|split; [|done]; by exists x, k, t].
      match goal with |- context [drive c' ?s0] =>
        pose proof (drive_frame c' s0) as HF; cbv zeta in HF;
        set (s' := drive c' s0) in * end.
      destruct HF as (H1&H4&_&H6&H7&_).
      match type of H1 with context [foldl ?f s ?es] =>
        destruct (report_all_frame es s) as (R1&R2&R3&R4&_) end.
      cbv zeta in R1, R2, R3, R4.
      split.
      * exists x, k, t. rewrite H6 by done. rewrite H4 by (rewrite R2; done).
        rewrite H1, R2, R3, R4. done.
      * rewrite H7 by done. rewrite R1, invokedBy_app, invokedBy_reported.
        by rewrite app_nil_r.
  - destruct (waitUntil k' p' s) as [s1 e] eqn:Hw.
    destruct (waitUntil_frame k' p' s _ _ Hw) as (H1&H2&H3&_&_&_&_&H8&H9).
    assert (blockedOn c p s1 /\ invokedBy c (log s1) = invokedBy c (log s)) as [Hb Hi].
    { split; [|by rewrite H1]. destruct (decide (k' = k)) as [->|Hne].
      - destruct (H9 t Hk) as (t' & Hk' & _ & _ & Hsub).
        exists x, k, t'. rewrite H2, H3. repeat split; try done. by apply Hsub.
      - exists x, k, t. rewrite H2, H3, H8 by done. done. }
    destruct e as [e|]; [|done]. split.
    + destruct Hb as (x1 & k1 & t1 & ?). by exists x1, k1, t1.
    + simpl. rewrite invokedBy_app. simpl. by rewrite app_nil_r.
Qed.

Lemma exec_blockedOn evs :
  forall s c p,
    blockedOn c p s ->
    Forall (fun ev => forall o, ev <> ESettle p o) evs ->
    blockedOn c p (exec evs s) /\ invokedBy c (log (exec evs s)) = invokedBy c (log s).
Proof.
  induction evs as [|ev evs IH]; intros s c p Hb Hevs; [done|].
  inversion Hevs as [|? ? Hev Hrest]; subst.
  destruct (step_blockedOn ev s c p Hb Hev) as [Hb' Hi'].
  destruct (IH (step ev s) c p Hb' Hrest) as [Hb'' Hi''].
  simpl. split; [done | congruence].
Qed.

(** A frozen [thenables] array stays as it is, whatever happens. *)
Lemma step_frozen ev s k t :
  turns s !! k = Some t -> isFrozen t = true -> turns (step ev s) !! k = Some t.
Proof.
  intros Hk Hf. pose proof (lookup_lt_Some _ _ _ Hk) as Hklt.
  destruct ev as [cb|data tok pj|p' o|tok|c'|k' p']; simpl; try done.
  - unfold fireAsync. destruct (_listeners s) as [ls|]; [|done].
    cbv zeta.
    match goal with |- context [drive ?c0 ?s0] =>
      pose proof (drive_frame c0 s0) as HF; cbv zeta in HF;
      set (s' := drive c0 s0) in * end.
    destruct HF as (_&H4&_).
    cbn [settled turns calls log set_asyncDeliveryQueue set_calls] in H4.
    by rewrite H4.
  - by destruct (settled s !! p').
  - unfold wake.
    destruct (calls s !! c') as [[tk pjx [k'|]]|]; try done.
    destruct (forallb _ _); [|done].
    match goal with |- context [drive c' ?s0] =>
      pose proof (drive_frame c' s0) as HF; cbv zeta in HF;
      set (s' := drive c' s0) in * end.
    destruct HF as (_&H4&_).
    match type of H4 with context [foldl ?f s ?es] =>
      destruct (report_all_frame es s) as (_&R2&_) end.
    cbv zeta in R2. rewrite H4 by (rewrite R2; done). by rewrite R2.
  - destruct (waitUntil k' p' s) as [s1 e] eqn:Hw.
    destruct (waitUntil_frame k' p' s _ _ Hw) as (_&_&_&_&_&_&_&H8&H9).
    assert (turns s1 !! k = Some t) as Hk1.
    { destruct (decide (k' = k)) as [->|Hne]; [|by rewrite H8].
      destruct (H9 t Hk) as (t' & Hk' & _ & Hsame & _).
      destruct (Hsame Hf) as [-> _]. done. }
    by destruct e.
Qed.

Lemma exec_frozen evs :
  forall s k t,
    turns s !! k = Some t -> isFrozen t = true -> turns (exec evs s) !! k = Some t.
Proof.
  induction evs as [|ev evs IH]; intros s k t Hk Hf; [done|].
  simpl. apply IH; [|done]. by apply step_frozen.
Qed.

(** A turn that joins promises and goes on: the joins are collected first. *)
Lemma run_joins k ps script :
  forall s t,
    turns s !! k = Some t -> isFrozen t = false ->
    run k (map WaitUntil ps ++ script) s
    = run k script
        (set_turns (<[k := {| thenables :=
                                thenables t
                                ++ map (fun p => match join t with
                                                 | Some f => f p (listener t)
                                                 | None => p
                                                 end) ps;
                              isFrozen := false; join := join t;
                              listener := listener t |}]> (turns s)) s).
Proof.
  induction ps as [|p ps IH]; intros s t Hk Hf; simpl.
  - rewrite app_nil_r. f_equal. destruct s, t; simpl in *; subst.
    by rewrite list_insert_id.
  - unfold waitUntil. rewrite Hk, Hf.
    rewrite (IH _ {| thenables :=
                       thenables t ++ [match join t with
                                       | Some f => f p (listener t)
                                       | None => p
                                       end];
                     isFrozen := false; join := join t; listener := listener t |}).
    + f_equal. unfold set_turns. simpl. rewrite list_insert_insert_eq.
      by rewrite <- app_assoc.
    + apply list_lookup_insert_eq. by eapply lookup_lt_Some.
    + done.
Qed.

(** One round of the loop for a listener that joins [ps] and returns. *)
Lemma loop_returns c tok pj (l : Async.Listener D) data q ps s x :
  calls s !! c = Some x ->
  tok ∉ cancelled s ->
  Async.callback l data = map WaitUntil ps ->
  let k := length (turns s) in
  let s' := loop c tok pj ((l, data) :: q) s in
  calls s' !! c = Some {| token := token x; promiseJoin := promiseJoin x; at_ := Awaiting k |}
  /\ turns s' !! k
     = Some {| thenables := map (fun p => match pj with
                                          | Some f => f p (Async.lid l)
                                          | None => p
                                          end) ps;
               isFrozen := true; join := pj; listener := Async.lid l |}
  /\ Async.log s' = Async.log s ++ [Invoked c (Async.lid l) data]
  /\ _asyncDeliveryQueue s' = Some q
  /\ settled s' = settled s
  /\ cancelled s' = cancelled s
  /\ length (calls s') = length (calls s).
Proof.
  intros Hc Htok Hscript k s'. subst s' k. cbn [loop].
  rewrite decide_False by done. cbv zeta.
  cbn [turns set_asyncDeliveryQueue]. rewrite Hscript.
  rewrite (run_collects (length (turns s)) ps _
             {| thenables := []; isFrozen := false; join := pj;
                listener := Async.lid l |}).
  - cbn [set_status freeze set_turns set_calls turns thenables join listener app
         calls emit set_asyncDeliveryQueue Async.log _asyncDeliveryQueue settled cancelled].
    rewrite !list_lookup_alter_eq, Hc, list_lookup_insert_eq, length_alter.
    + done.
    + rewrite length_app. simpl. lia.
  - cbn [turns emit set_turns set_asyncDeliveryQueue]. by rewrite list_lookup_middle.
  - done.
Qed.

(** One round of the loop for a listener that joins [ps] and then throws:
    the error is reported and the loop goes on with the rest of the queue
    at once; the [thenables] of the turn are not frozen. *)
Lemma loop_throws c tok pj (l : Async.Listener D) data q ps e tail s :
  tok ∉ cancelled s ->
  Async.callback l data = map WaitUntil ps ++ Throw e :: tail ->
  let k := length (turns s) in
  exists s1,
    loop c tok pj ((l, data) :: q) s = loop c tok pj q (onUnexpectedError e s1)
    /\ turns s1
       = turns s ++ [{| thenables := map (fun p => match pj with
                                                   | Some f => f p (Async.lid l)
                                                   | None => p
                                                   end) ps;
                        isFrozen := false; join := pj; listener := Async.lid l |}]
    /\ Async.log s1 = Async.log s ++ [Invoked c (Async.lid l) data]
    /\ _asyncDeliveryQueue s1 = Some q
    /\ settled s1 = settled s
    /\ cancelled s1 = cancelled s
    /\ calls s1 = calls s.
Proof.
  intros Htok Hscript k. cbn [loop]. rewrite decide_False by done. cbv zeta.
  cbn [turns set_asyncDeliveryQueue]. rewrite Hscript.
  rewrite (run_joins (length (turns s)) ps _ _
             {| thenables := []; isFrozen := false; join := pj;
                listener := Async.lid l |}).
  - cbn [run]. eexists. split; [reflexivity|].
    cbn [set_turns turns emit set_asyncDeliveryQueue Async.log _asyncDeliveryQueue
         settled cancelled calls thenables join listener app].
    repeat split; try done.
    rewrite insert_app_r_alt by done. by rewrite Nat.sub_diag.
  - cbn [turns emit set_turns set_asyncDeliveryQueue]. by rewrite list_lookup_middle.
  - done.
Qed.

(** The loop invokes the entry at the head of the queue, unless the token
    is cancelled. *)
Lemma loop_head c tok pj (l : Async.Listener D) data q s :
  tok ∉ cancelled s ->
  exists rest,
    Async.log (loop c tok pj ((l, data) :: q) s)
    = Async.log s ++ Invoked c (Async.lid l) data :: rest.
Proof.
  intros Htok. cbn [loop]. rewrite decide_False by done. cbv zeta.
  cbn [turns set_asyncDeliveryQueue].
  destruct (run _ _ _) as [s1 [e|]] eqn:Hrun;
    destruct (run_frame _ _ _ _ _ Hrun) as (H1 & _);
    cbn [Async.log emit set_turns set_asyncDeliveryQueue] in H1.
  - destruct (loop_frame c tok pj q (onUnexpectedError e s1)) as (_&_&_&_&_&_&_&(entries & ->)).
    cbn [onUnexpectedError emit Async.log]. rewrite H1.
    eexists. rewrite <- !app_assoc. reflexivity.
  - destruct (set_status_frame c (Awaiting (length (turns s)))
                (freeze (length (turns s)) s1)) as (-> & _).
    cbn [freeze set_turns Async.log]. rewrite H1. by exists [].
Qed.

(** [fireAsync] registers the call, queues a snapshot of the listeners
    behind what the delivery queue holds, and enters the loop. *)
Lemma fireAsync_enters data tok pj s ls :
  _listeners s = Some ls ->
  fireAsync data tok pj s
  = drive (length (calls s))
      (set_asyncDeliveryQueue
         (Some (default [] (_asyncDeliveryQueue s) ++ map (fun l => (l, data)) ls))
         (set_calls (calls s ++ [{| token := tok; promiseJoin := pj; at_ := Finished |}]) s)).
Proof. intros Hls. unfold fireAsync. by rewrite Hls. Qed.

(** A promise settles once. *)
Lemma step_settled ev s p o :
  settled s !! p = Some o -> settled (step ev s) !! p = Some o.
Proof.
  intros Hp. destruct ev as [cb|data tok pj|p' o'|tok|c'|k' p']; simpl; try done.
  - unfold fireAsync. destruct (_listeners s) as [ls|]; [|done].
    cbv zeta.
    match goal with |- context [drive ?c0 ?s0] =>
      destruct (drive_frame c0 s0) as (-> & _) end.
    done.
  - destruct (settled s !! p') eqn:Hp'; [done|]. simpl.
    rewrite lookup_insert_ne; [done|]. intros ->. congruence.
  - unfold wake.
    destruct (calls s !! c') as [[tk pjx [k'|]]|]; try done.
    destruct (forallb _ _); [|done].
    match goal with |- context [drive c' ?s0] =>
      destruct (drive_frame c' s0) as (-> & _) end.
    match goal with |- context [foldl ?f s ?es] =>
      destruct (report_all_frame es s) as (_&_&_&->&_) end.
    done.
  - destruct (waitUntil k' p' s) as [s1 e] eqn:Hw.
    destruct (waitUntil_frame k' p' s _ _ Hw) as (_&_&H3&_).
    destruct e; simpl; by rewrite H3.
Qed.

Lemma exec_settled evs :
  forall s p o, settled s !! p = Some o -> settled (exec evs s) !! p = Some o.
Proof.
  induction evs as [|ev evs IH]; intros s p o Hp; [done|].
  simpl. apply IH. by apply step_settled.
Qed.

(** Nothing but its own continuation changes where a call stands. *)
Lemma step_call ev s c x :
  calls s !! c = Some x -> ev <> EWake c -> calls (step ev s) !! c = Some x.
Proof.
  intros Hc Hev. pose proof (lookup_lt_Some _ _ _ Hc) as Hclt.
  destruct ev as [cb|data tok pj|p' o|tok|c'|k' p']; simpl; try done.
  - unfold fireAsync. destruct (_listeners s) as [ls|].
    + cbv zeta.
      match goal with |- context [drive ?c0 ?s0] =>
        pose proof (drive_frame c0 s0) as HF; cbv zeta in HF;
        set (s' := drive c0 s0) in * end.
      destruct HF as (_&_&_&H6&_).
      cbn [calls set_asyncDeliveryQueue set_calls] in H6.
      rewrite H6 by lia. by rewrite lookup_app_l.
    + cbn [calls set_calls]. by rewrite lookup_app_l.
  - by destruct (settled s !! p').
  - unfold wake.
    destruct (calls s !! c') as [[tk pjx [k'|]]|] eqn:Hc'; try done.
    destruct (forallb _ _); [|done].
    match goal with |- context [drive c' ?s0] =>
      pose proof (drive_frame c' s0) as HF; cbv zeta in HF;
      set (s' := drive c' s0) in * end.
    destruct HF as (_&_&_&H6&_).
    match type of H6 with context [foldl ?f s ?es] =>
      destruct (report_all_frame es s) as (_&_&R3&_) end.
    cbv zeta in R3. rewrite H6 by congruence. by rewrite R3.
  - destruct (waitUntil k' p' s) as [s1 e] eqn:Hw.
    destruct (waitUntil_frame k' p' s _ _ Hw) as (_&H2&_).
    destruct e; simpl; by rewrite H2.
Qed.

Lemma exec_call evs :
  forall s c x,
    calls s !! c = Some x -> Forall (fun ev => ev <> EWake c) evs ->
    calls (exec evs s) !! c = Some x.
Proof.
  induction evs as [|ev evs IH]; intros s c x Hc Hevs; [done|].
  inversion Hevs as [|? ? Hev Hrest]; subst.
  simpl. apply IH; [|done]. by apply step_call.
Qed.

(** The continuation of a call that waits for a pending promise does not
    run. *)
Lemma wake_blockedOn c p s : blockedOn c p s -> wake c s = s.
Proof.
  intros (x & k & t & Hc & Hat & Hk & Hp & Hpending).
  unfold wake. rewrite Hc. destruct x as [tk pjx st]. simpl in Hat. subst st.
  rewrite Hk. simpl.
  assert (forallb (isSettled s) (thenables t) = false) as ->; [|done].
  apply not_true_is_false. intros Hall. rewrite forallb_forall in Hall.
  specialize (Hall p). unfold isSettled in Hall. rewrite Hpending in Hall.
  assert (false = true) by (apply Hall; by apply list_elem_of_In). done.
Qed.

(** As long as a promise joined in the current turn of call [c] is
    pending, [c] stays suspended on that turn and invokes no listener. *)
Lemma exec_pending evs :
  forall s c p,
    blockedOn c p s ->
    settled (exec evs s) !! p = None ->
    blockedOn c p (exec evs s) /\ invokedBy c (Async.log (exec evs s)) = invokedBy c (Async.log s).
Proof.
  induction evs as [|ev evs IH]; intros s c p Hb Hpending; [done|].
  simpl in *.
  assert (forall o, ev <> ESettle p o) as Hev.
  { intros o ->. destruct Hb as (x & k & t & _ & _ & _ & _ & Hnone).
    assert (settled (step (ESettle p o) s) !! p = Some o) as Hs.
    { simpl. rewrite Hnone. simpl. apply lookup_insert_eq. }
    rewrite (exec_settled evs _ _ _ Hs) in Hpending. done. }
  destruct (step_blockedOn ev s c p Hb Hev) as [Hb' Hi'].
  destruct (IH (step ev s) c p Hb' Hpending) as [Hb'' Hi''].
  split; [done | congruence].
Qed.




End AsyncFacts.

(** *** The claims about [fireAsync] *)

Section AsyncClaims.
Import Async.
Local Open Scope nat_scope.

(** C6 (amended): a call of [fireAsync] handles its listeners one at a
    time.  Take the call at the head of its loop, with a listener at the
    head of the delivery queue and a token that is not cancelled.  When
    the listener joins promises and returns, the call invokes this
    listener only and is suspended on the promises joined in this turn,
    the rest of the queue left waiting: as long as one of these promises
    is pending, nothing that happens makes the call invoke another
    listener; its continuation does not run before every one of them has
    settled, rejected ones included; and when it runs, it reports each
    rejection to the error sink, in order, and re-enters the loop.  No
    rejection reaches the caller.  When the listener throws instead, after
    having joined promises or not, the error is reported and the loop goes
    on at once: the next listener in the queue is invoked in the same
    step, whether or not the promises joined by the faulty listener have
    settled. *)
Theorem C6_turns_are_sequential {D} (s : Async.state D) (c : nat) (x : call)
    (l : Async.Listener D) (data : D) (q : list (Async.Listener D * D)) (ps : list nat) :
  calls s !! c = Some x ->
  _asyncDeliveryQueue s = Some ((l, data) :: q) ->
  token x ∉ cancelled s ->
  let k := length (turns s) in
  let joined := map (fun p => match promiseJoin x with
                              | Some f => f p (Async.lid l)
                              | None => p
                              end) ps in
  (Async.callback l data = map WaitUntil ps ->
   let s' := drive c s in
   at_ <$> calls s' !! c = Some (Awaiting k)
   /\ thenables <$> turns s' !! k = Some joined
   /\ Async.log s' = Async.log s ++ [Invoked c (Async.lid l) data]
   /\ _asyncDeliveryQueue s' = Some q
   /\ (forall evs p,
         p ∈ joined -> settled (exec evs s') !! p = None ->
         invokedBy c (Async.log (exec evs s')) = invokedBy c (Async.log s')
         /\ wake c (exec evs s') = exec evs s')
   /\ (forall evs,
         Forall (fun ev => ev <> EWake c) evs ->
         let s2 := exec evs s' in
         at_ <$> calls s2 !! c = Some (Awaiting k)
         /\ (forallb (isSettled s2) joined = false -> wake c s2 = s2)
         /\ (forallb (isSettled s2) joined = true ->
             wake c s2
             = drive c (foldl (fun s e => onUnexpectedError e s) s2 (rejections s2 joined))
             /\ exists rest,
                  Async.log (wake c s2)
                  = Async.log s2 ++ map Reported (rejections s2 joined) ++ rest)))
  /\ (forall e tail,
        Async.callback l data = map WaitUntil ps ++ Throw e :: tail ->
        exists rest,
          Async.log (drive c s)
          = Async.log s ++ Invoked c (Async.lid l) data :: Reported e :: rest
          /\ (forall l2 d2 q2, q = (l2, d2) :: q2 ->
                exists rest', rest = Invoked c (Async.lid l2) d2 :: rest')).
Proof.
  intros Hc Hq Htok k joined.
  assert (drive c s = loop c (token x) (promiseJoin x) ((l, data) :: q) s) as Hdrive.
  { unfold drive. by rewrite Hc, Hq. }
  split.
  - intros Hscript s'. subst s'. rewrite Hdrive.
    destruct (loop_returns c (token x) (promiseJoin x) l data q ps s x Hc Htok Hscript)
      as (Hcall & Hturn & Hlog & Hqueue & Hsettled & _).
    fold k in Hcall, Hturn. fold joined in Hturn.
    set (s' := loop c (token x) (promiseJoin x) ((l, data) :: q) s) in *.
    split; [by rewrite Hcall|]. split; [by rewrite Hturn|].
    split; [done|]. split; [done|]. split.
    + intros evs p Hp Hpending.
      destruct (exec_pending evs s' c p) as [Hb Hi]; [|done|].
      * eexists _, k, _. split; [exact Hcall|]. split; [done|]. split; [exact Hturn|].
        split; [done|].
        destruct (settled s' !! p) as [o|] eqn:Hs; [|done].
        by rewrite (exec_settled evs _ _ _ Hs) in Hpending.
      * split; [done|]. by apply (wake_blockedOn c p).
    + intros evs Hevs s2.
      pose proof (exec_frozen evs s' k _ Hturn eq_refl) as Hturn2. fold s2 in Hturn2.
      pose proof (exec_call evs s' c _ Hcall Hevs) as Hc2. fold s2 in Hc2.
      split; [by rewrite Hc2|].
      unfold wake. rewrite Hc2, Hturn2. simpl. fold joined.
      split.
      * by intros ->.
      * intros ->. split; [done|].
        match goal with |- context [drive c ?s0] =>
          destruct (drive_frame c s0) as (_&_&_&_&_&(entries & ->)) end.
        destruct (report_all_frame (rejections s2 joined) s2) as (-> & _).
        exists entries. by rewrite <- app_assoc.
  - intros e tail Hscript. rewrite Hdrive.
    destruct (loop_throws c (token x) (promiseJoin x) l data q ps e tail s Htok Hscript)
      as (s1 & -> & _ & Hlog1 & _ & _ & Hcan1 & _).
    destruct q as [|[l2 d2] q2].
    + exists []. cbn [loop].
      destruct (set_status_frame c Finished (onUnexpectedError e s1)) as (-> & _).
      cbn [onUnexpectedError emit Async.log]. rewrite Hlog1, <- app_assoc.
      split; [done|]. intros l2 d2 q2 [=].
    + destruct (loop_head c (token x) (promiseJoin x) l2 d2 q2 (onUnexpectedError e s1))
        as [rest' Hrest].
      { cbn [onUnexpectedError emit cancelled]. by rewrite Hcan1. }
      exists (Invoked c (Async.lid l2) d2 :: rest'). rewrite Hrest.
      cbn [onUnexpectedError emit Async.log]. rewrite Hlog1, <- !app_assoc.
      split; [done|]. intros l3 d3 q3 [= <- <- <-]. by exists rest'.
Qed.

Lemma C6_witness :
  (let s' := drive 0 (entering two_joiners) in
   at_ <$> calls s' !! 0 = Some (Awaiting 0)
   /\ thenables <$> turns s' !! 0 = Some [1]
   /\ Async.log s' = [Invoked 0 0 7%Z]
   /\ _asyncDeliveryQueue s' = Some [(second_joiner, 7%Z)]
   /\ invokedBy 0 (Async.log (exec [ESettle 2 Fulfilled; EWake 0; ELateWaitUntil 0 9] s'))
      = invokedBy 0 (Async.log s'))
  /\ exists rest,
       Async.log (drive 0 (entering joiner_that_throws))
       = [Invoked 0 0 7%Z; Reported "x"; Invoked 0 1 7%Z] ++ rest.
Proof.
  split.
  - destruct (C6_turns_are_sequential (entering two_joiners) 0
                {| token := 0; promiseJoin := None; at_ := Finished |}
                first_joiner 7%Z [(second_joiner, 7%Z)] [1]) as [H _].
    + reflexivity.
    + reflexivity.
    + apply not_elem_of_empty.
    + destruct (H eq_refl) as (H1 & H2 & H3 & H4 & H5 & _).
      split; [exact H1|]. split; [exact H2|]. split; [exact H3|]. split; [exact H4|].
      apply (H5 [ESettle 2 Fulfilled; EWake 0; ELateWaitUntil 0 9] 1).
      * apply list_elem_of_here.
      * reflexivity.
  - destruct (C6_turns_are_sequential (entering joiner_that_throws) 0
                {| token := 0; promiseJoin := None; at_ := Finished |}
                thrower 7%Z [(bystander, 7%Z)] [1]) as [_ H].
    + reflexivity.
    + reflexivity.
    + apply not_elem_of_empty.
    + destruct (H "x" [] eq_refl) as (rest & Hlog & Hnext).
      destruct (Hnext bystander 7%Z [] eq_refl) as [rest' ->].
      exists rest'. exact Hlog.
Defined.

(** [fireAsync] registers the call, queues the listeners and enters the
    loop. *)
Example fireAsync_enters_the_loop :
  fireAsync 7%Z 0 None two_joiners = drive 0 (entering two_joiners)
  /\ fireAsync 7%Z 0 None joiner_that_throws = drive 0 (entering joiner_that_throws).
Proof. split; reflexivity. Qed.

(** The example of the specification: the second listener is entered only
    after the promise of the first has settled, and the call ends only
    after the promise of the second has. *)
Example sequential_joins :
  let s0 := exec [EFireAsync 7%Z 0 None] two_joiners in
  let s1 := exec [ESettle 2 Fulfilled; EWake 0] s0 in
  let s2 := exec [ESettle 1 Fulfilled; EWake 0] s1 in
  let s3 := exec [EWake 0] s2 in
  invokedBy 0 (Async.log s0) = [(0, 7%Z)]
  /\ invokedBy 0 (Async.log s1) = [(0, 7%Z)]
  /\ invokedBy 0 (Async.log s2) = [(0, 7%Z); (1, 7%Z)]
  /\ at_ <$> calls s2 !! 0 = Some (Awaiting 1)
  /\ at_ <$> calls s3 !! 0 = Some Finished.
Proof. repeat split; reflexivity. Qed.

(** C6, as stated, fails: when a listener throws after it has joined a
    promise, the next listener is invoked at once, while that promise is
    pending, and the later rejection of the promise is never reported. *)
Lemma C6_counterexample :
  let s := exec [EFireAsync 7%Z 0 None] joiner_that_throws in
  thenables <$> turns s !! 0 = Some [1]
  /\ settled s !! 1 = None
  /\ Async.log s = [Invoked 0 0 7%Z; Reported "x"; Invoked 0 1 7%Z]
  /\ Async.reports (Async.log (exec [ESettle 1 (Rejected "r"); EWake 0; EWake 0] s)) = ["x"].
Proof. repeat split; reflexivity. Qed.




End AsyncClaims.
